(** * rle.py: a run-length codec with a five byte container header

    A shallow embedding of [src/rle.py] (the [RLEMethod] enumeration,
    [encode_rle], [_encode_mA], [_encode_mB], [_do_encode], [decode_rle],
    [_decode_mA], [_decode_mB], [_int_to_byte]) and the properties of the
    codec that follow from it.

    Python values are modelled as follows.
    - a [bytes] object is a [list byte]; [in_file.read(1)] therefore yields a
      list of length 0 or 1, and the source's tests [if not b1], [b1 == b2],
      [b3[0]] and [count * b1] are tests and operations on such lists;
    - a Python [int] is a [Z];
    - a binary file opened for reading is its content with a read position
      ([read], [seek]); a file opened for writing is the bytes written so far;
    - an exception is a value of [exn], threaded by a state-and-error monad.

    The entry points are modelled for calls in which both paths open without
    error and name different files, so that a call is determined by the bytes
    of the input file; [overwrite] only selects the mode in which the output
    file is opened and does not appear.  The [while] and [for] loops recurse
    on a bound that the calling function sets to one more than the number of
    bytes left to read; the lemmas [_do_encode_loop_runs],
    [_decode_mA_loop_decoded] and [_decode_mB_loop_decoded] show that every
    such bound gives the same result, and [encode_rle_total] and
    [decode_rle_total] that the bound is never used up. *)

From Stdlib Require Import ZArith List Bool Lia.
From Stdlib Require Import Strings.Byte.
From Stdlib Require Strings.Ascii Strings.String.
Import ListNotations.
Import String.StringSyntax.
Delimit Scope string_scope with string.

Open Scope Z_scope.

(** ** Python values *)

Definition bytes := list byte.

(** [==] on two [bytes] objects. *)
Fixpoint bytes_eqb (a b : bytes) : bool :=
  match a, b with
  | [], [] => true
  | x :: a', y :: b' => Byte.eqb x y && bytes_eqb a' b'
  | _, _ => false
  end.

(** truth value of a [bytes] object: [if b] holds when [b] is not empty. *)
Definition truthy (b : bytes) : bool :=
  match b with [] => false | _ :: _ => true end.

(** [n * b] for an int [n] and a bytes object [b]. *)
Definition bytes_mul (n : Z) (b : bytes) : bytes :=
  concat (repeat b (Z.to_nat n)).

(** The exceptions this module can raise, named after the Python exception
    and the expression that raises it. *)
Inductive exn : Type :=
| KeyError_method          (* {...}[method], method not a key *)
| ValueError_not_a_method  (* RLEMethod(tag), tag is no member's value *)
| ValueError_unpack        (* count, next_byte_int = <one byte> *)
| IndexError_b3            (* b3[0] on an empty bytes object *)
| ValueError_bytes_range   (* bytes([n]), n outside range(256) *)
| OverflowError_to_bytes   (* int.to_bytes(4, 'big') *)
| OSError_seek.            (* seek before the start of the file *)

(** Result of running a piece of code: it returns, it raises, or the model's
    loop bound was used up ([OutOfFuel] is shown never to happen). *)
Inductive outcome (A : Type) : Type :=
| Ret (a : A)
| Raise (e : exn)
| OutOfFuel.
Arguments Ret {A} a.
Arguments Raise {A} e.
Arguments OutOfFuel {A}.

(** ** Files *)

Record reader : Type := mkReader { content : bytes; pos : nat }.

Record io : Type := mkIO { in_file : reader; out_file : bytes }.

Definition M (A : Type) : Type := io -> io * outcome A.

Definition ret {A} (a : A) : M A := fun st => (st, Ret a).

Definition raise {A} (e : exn) : M A := fun st => (st, Raise e).

Definition bind {A B} (m : M A) (k : A -> M B) : M B :=
  fun st =>
    match m st with
    | (st', Ret a) => k a st'
    | (st', Raise e) => (st', Raise e)
    | (st', OutOfFuel) => (st', OutOfFuel)
    end.

Declare Scope io_scope.
Delimit Scope io_scope with io.
Notation "x <- m ;; k" := (bind m (fun x => k))
  (at level 61, m at next level, right associativity) : io_scope.
Notation "m ;;; k" := (bind m (fun _ => k))
  (at level 61, right associativity) : io_scope.
Open Scope io_scope.

(** [in_file.read(n)]: at most [n] bytes from the read position. *)
Definition read (n : nat) : M bytes :=
  fun st =>
    let r := in_file st in
    let chunk := firstn n (skipn (pos r) (content r)) in
    (mkIO (mkReader (content r) (pos r + length chunk)) (out_file st),
     Ret chunk).

(** [in_file.seek(off, SEEK_CUR)]. *)
Definition seek_cur (off : Z) : M unit :=
  fun st =>
    let r := in_file st in
    let p := Z.of_nat (pos r) + off in
    if p <? 0 then (st, Raise OSError_seek)
    else (mkIO (mkReader (content r) (Z.to_nat p)) (out_file st), Ret tt).

(** [out_file.write(b)]. *)
Definition write (b : bytes) : M unit :=
  fun st => (mkIO (in_file st) (out_file st ++ b), Ret tt).

(** ** The module *)

Inductive RLEMethod : Type := A | B.

(** [RLEMethod.A.value] is [b'\x21'], [RLEMethod.B.value] is [b'\x8a']. *)
Definition value (m : RLEMethod) : bytes :=
  match m with
  | A => [x21]
  | B => [x8a]
  end.

(** [RLEMethod(v)]: the member whose value is [v]. *)
Definition RLEMethod_of_value (v : bytes) : outcome RLEMethod :=
  if bytes_eqb v (value A) then Ret A
  else if bytes_eqb v (value B) then Ret B
  else Raise ValueError_not_a_method.

(** What a caller can pass as [method]: a member of the enumeration, or
    some other (hashable) object. *)
Inductive pyval : Type :=
| Member (m : RLEMethod)
| PyNone
| PyInt (n : Z)
| PyBytes (b : bytes).

(** [_int_to_byte(byte)] is [bytes([byte])]. *)
Definition _int_to_byte (n : Z) : M bytes :=
  if (0 <=? n) && (n <? 256) then
    match Byte.of_N (Z.to_N n) with
    | Some b => ret [b]
    | None => raise ValueError_bytes_range
    end
  else raise ValueError_bytes_range.

(** The closure [write_fn] of [_encode_mA]. *)
Definition write_fn_mA (curr_byte : bytes) (count : Z) : M unit :=
  c <- _int_to_byte count ;;
  write c ;;;
  write curr_byte.

(** The closure [write_fn] of [_encode_mB]. *)
Definition write_fn_mB (curr_byte : bytes) (count : Z) : M unit :=
  write curr_byte ;;;
  if 1 <? count then
    write curr_byte ;;;
    c <- _int_to_byte count ;;
    write c
  else ret tt.

(** The [for next_byte in iter(lambda: in_.read(1), b'')] loop of
    [_do_encode], with its two loop variables, followed by the final
    [if curr_byte: write_fn(curr_byte, count)]. *)
Fixpoint _do_encode_loop (fuel : nat) (write_fn : bytes -> Z -> M unit)
         (curr_byte : bytes) (count : Z) : M unit :=
  match fuel with
  | O => fun st => (st, OutOfFuel)
  | S fuel' =>
      next_byte <- read 1 ;;
      if bytes_eqb next_byte [] then
        if truthy curr_byte then write_fn curr_byte count else ret tt
      else if bytes_eqb next_byte curr_byte then
        let count := count + 1 in
        if count =? 256 then
          write_fn curr_byte (count - 1) ;;;
          _do_encode_loop fuel' write_fn curr_byte 1
        else _do_encode_loop fuel' write_fn curr_byte count
      else
        write_fn curr_byte count ;;;
        _do_encode_loop fuel' write_fn next_byte 1
  end.

(** Number of bytes between the read position and the end of the file. *)
Definition remaining (st : io) : nat :=
  length (skipn (pos (in_file st)) (content (in_file st))).

Definition _do_encode (write_fn : bytes -> Z -> M unit) : M unit :=
  curr_byte <- read 1 ;;
  fun st => _do_encode_loop (S (remaining st)) write_fn curr_byte 1 st.

Definition _encode_mA : M unit := _do_encode write_fn_mA.

Definition _encode_mB : M unit := _do_encode write_fn_mB.

(** [for count, next_byte_int in iter(lambda: in_file.read(2), b'')]. *)
Fixpoint _decode_mA_loop (fuel : nat) : M unit :=
  match fuel with
  | O => fun st => (st, OutOfFuel)
  | S fuel' =>
      pair <- read 2 ;;
      match pair with
      | [] => ret tt
      | [count; next_byte_int] =>
          b <- _int_to_byte (Z.of_N (Byte.to_N next_byte_int)) ;;
          write (bytes_mul (Z.of_N (Byte.to_N count)) b) ;;;
          _decode_mA_loop fuel'
      | _ => raise ValueError_unpack
      end
  end.

Definition _decode_mA : M unit :=
  fun st => _decode_mA_loop (S (remaining st)) st.

(** The [while True] loop of [_decode_mB]. *)
Fixpoint _decode_mB_loop (fuel : nat) : M unit :=
  match fuel with
  | O => fun st => (st, OutOfFuel)
  | S fuel' =>
      b1 <- read 1 ;;
      b2 <- read 1 ;;
      if negb (truthy b1) then ret tt
      else
        count <-
          (if bytes_eqb b1 b2 then
             b3 <- read 1 ;;
             match b3 with
             | [] => raise IndexError_b3
             | c :: _ => ret (Z.of_N (Byte.to_N c))
             end
           else
             (if truthy b2 then seek_cur (-1) else ret tt) ;;;
             ret 1) ;;
        write (bytes_mul count b1) ;;;
        _decode_mB_loop fuel'
  end.

Definition _decode_mB : M unit :=
  fun st => _decode_mB_loop (S (remaining st)) st.

(** ** Entry points *)

(** A byte from an int already known to lie in [range(256)]. *)
Definition byte_of_Z (n : Z) : byte :=
  match Byte.of_N (Z.to_N n) with
  | Some b => b
  | None => x00
  end.

Fixpoint big_endian (len : nat) (n : Z) : bytes :=
  match len with
  | O => []
  | S len' => big_endian len' (n / 256) ++ [byte_of_Z (n mod 256)]
  end.

(** [n.to_bytes(len, 'big')] (unsigned). *)
Definition to_bytes (n : Z) (len : nat) : outcome bytes :=
  if (n <? 0) || (256 ^ Z.of_nat len <=? n) then Raise OverflowError_to_bytes
  else Ret (big_endian len n).

(** [int.from_bytes(b, 'big')], as [pycoder.py] applies it to the timestamp
    that [decode_rle] returns. *)
Definition from_bytes (b : bytes) : Z :=
  fold_left (fun acc x => acc * 256 + Z.of_N (Byte.to_N x)) b 0.

(** What executing the module leaves behind that [encode_rle] depends on:
    the default value of its parameter [ts], which Python evaluates when the
    [def] statement runs. *)
Record rle_module : Type := mkModule { ts_default : bytes }.

(** Executing [def encode_rle(..., ts = int(time.time()).to_bytes(4, 'big'))]
    when the clock reads [clock] whole seconds since the epoch. *)
Definition def_encode_rle (clock : Z) : outcome rle_module :=
  match to_bytes clock 4 with
  | Ret b => Ret (mkModule b)
  | Raise e => Raise e
  | OutOfFuel => OutOfFuel
  end.

(** Effect of a call on the output file and what the call returns.
    [written = None]: the output file was never opened. *)
Record call_result (R : Type) : Type :=
  mkResult { written : option bytes; returned : outcome R }.
Arguments mkResult {R} written returned.
Arguments written {R} c.
Arguments returned {R} c.

(** [encode_rle(method, in_file_path, out_file_path, overwrite, ts)] for an
    input file holding [in_bytes]; both files open without error.
    [clock] is the reading of the clock when the call starts (the body never
    consults it); [ts = None] stands for a call that omits [ts]. *)
Definition encode_rle (md : rle_module) (clock : Z) (method : pyval)
           (in_bytes : bytes) (ts : option bytes) : call_result unit :=
  match method with
  | Member m =>
      let encode_fn := match m with A => _encode_mA | B => _encode_mB end in
      let ts := match ts with Some t => t | None => ts_default md end in
      let '(st, r) :=
        (write (value m) ;;; write ts ;;; encode_fn)
          (mkIO (mkReader in_bytes 0) []) in
      mkResult (Some (out_file st)) r
  | _ => mkResult None (Raise KeyError_method)
  end.

(** [decode_rle(in_file_path, out_file_path)] for an input file holding
    [in_bytes]; returns the list [[method, ts]]. *)
Definition decode_rle (in_bytes : bytes) : call_result (RLEMethod * bytes) :=
  let header : M (RLEMethod * bytes) :=
    tag <- read 1 ;;
    method <- (fun st => (st, RLEMethod_of_value tag)) ;;
    ts <- read 4 ;;
    ret (method, ts) in
  match header (mkIO (mkReader in_bytes 0) []) with
  | (st, Ret (method, ts)) =>
      let decode_fn := match method with A => _decode_mA | B => _decode_mB end in
      match decode_fn st with
      | (st', Ret _) => mkResult (Some (out_file st')) (Ret (method, ts))
      | (st', Raise e) => mkResult (Some (out_file st')) (Raise e)
      | (st', OutOfFuel) => mkResult (Some (out_file st')) OutOfFuel
      end
  | (_, Raise e) => mkResult None (Raise e)
  | (_, OutOfFuel) => mkResult None OutOfFuel
  end.

(** ** The spec's error kinds *)

Inductive error_kind : Type := UnsupportedMethod | UnknownFormat | TruncatedInput.

(** How the exceptions raised by the module fall under the three kinds of
    error that the specification names; the remaining exceptions are not
    among them. *)
Definition classify (e : exn) : option error_kind :=
  match e with
  | KeyError_method => Some UnsupportedMethod
  | ValueError_not_a_method => Some UnknownFormat
  | ValueError_unpack => Some TruncatedInput
  | IndexError_b3 => Some TruncatedInput
  | _ => None
  end.

(** ** The codec on byte sequences

    Closed forms of what the loops above compute; each is related to its loop
    by a lemma below. *)

(** The calls [write_fn(curr_byte, count)] that [_do_encode] makes when its
    loop variables are [curr] and [count] and [rest] is still to be read. *)
Fixpoint runs_from (curr : byte) (count : Z) (rest : bytes) : list (byte * Z) :=
  match rest with
  | [] => [(curr, count)]
  | next :: rest' =>
      if Byte.eqb next curr then
        if count + 1 =? 256 then (curr, count + 1 - 1) :: runs_from curr 1 rest'
        else runs_from curr (count + 1) rest'
      else (curr, count) :: runs_from next 1 rest'
  end.

Definition runs (b : bytes) : list (byte * Z) :=
  match b with
  | [] => []
  | first :: rest => runs_from first 1 rest
  end.

(** Bytes that [write_fn_mA] and [write_fn_mB] append for one call. *)
Definition emit_mA (run : byte * Z) : bytes :=
  [byte_of_Z (snd run); fst run].

Definition emit_mB (run : byte * Z) : bytes :=
  if 1 <? snd run then [fst run; fst run; byte_of_Z (snd run)] else [fst run].

Definition emit (m : RLEMethod) : byte * Z -> bytes :=
  match m with A => emit_mA | B => emit_mB end.

Definition payload (m : RLEMethod) (b : bytes) : bytes :=
  flat_map (emit m) (runs b).

Definition count_of (c : byte) : nat := Z.to_nat (Z.of_N (Byte.to_N c)).

(** What [_decode_mA] writes for a payload, and how it ends. *)
Fixpoint decoded_mA (p : bytes) : bytes * outcome unit :=
  match p with
  | [] => ([], Ret tt)
  | count :: tl =>
      match tl with
      | [] => ([], Raise ValueError_unpack)
      | x :: rest =>
          let (o, r) := decoded_mA rest in (repeat x (count_of count) ++ o, r)
      end
  end.

(** What [_decode_mB] writes for a payload, and how it ends. *)
Fixpoint decoded_mB (p : bytes) : bytes * outcome unit :=
  match p with
  | [] => ([], Ret tt)
  | b1 :: tl =>
      match tl with
      | [] => ([b1], Ret tt)
      | b2 :: tl2 =>
          if Byte.eqb b1 b2 then
            match tl2 with
            | [] => ([], Raise IndexError_b3)
            | b3 :: rest =>
                let (o, r) := decoded_mB rest in (repeat b1 (count_of b3) ++ o, r)
            end
          else let (o, r) := decoded_mB tl in (b1 :: o, r)
      end
  end.

Definition decoded (m : RLEMethod) : bytes -> bytes * outcome unit :=
  match m with A => decoded_mA | B => decoded_mB end.

(** The items of a Method B payload: a byte passed through, or a doubled
    byte followed by a count byte. *)
Inductive item : Type :=
| Literal (x : byte)
| Doubled (x : byte) (count : byte).

Definition item_bytes (i : item) : bytes :=
  match i with
  | Literal x => [x]
  | Doubled x c => [x; x; c]
  end.

Definition item_expansion (i : item) : bytes :=
  match i with
  | Literal x => [x]
  | Doubled x c => repeat x (count_of c)
  end.

(** A sequence of items followed by [next] reads back as these items when no
    passed-through byte is followed by an equal byte. *)
Fixpoint separated (items : list item) (next : bytes) : Prop :=
  match items with
  | [] => True
  | Literal x :: items' =>
      hd_error (flat_map item_bytes items' ++ next) <> Some x
      /\ separated items' next
  | Doubled _ _ :: items' => separated items' next
  end.

(** ** The entry points on byte sequences *)

(** The timestamp bytes a call of [encode_rle] writes. *)
Definition effective_ts (md : rle_module) (ts : option bytes) : bytes :=
  match ts with Some t => t | None => ts_default md end.

(** The result of [decode_rle] once the header is read, from what the
    selected decoder wrote and how it ended. *)
Definition finish (m : RLEMethod) (ts : bytes) (d : bytes * outcome unit)
  : call_result (RLEMethod * bytes) :=
  mkResult (Some (fst d))
           (match snd d with
            | Ret _ => Ret (m, ts)
            | Raise e => Raise e
            | OutOfFuel => OutOfFuel
            end).

(** The first element of the list that [decode_rle] returns. *)
Definition method_of (r : outcome (RLEMethod * bytes)) : outcome RLEMethod :=
  match r with
  | Ret (m, _) => Ret m
  | Raise e => Raise e
  | OutOfFuel => OutOfFuel
  end.

(** The header of a container: method tag, then timestamp. *)
Definition header (m : RLEMethod) (ts : bytes) : bytes := value m ++ ts.

Definition starts_with (x : byte) (l : bytes) : Prop := hd_error l = Some x.

Definition ends_with (x : byte) (l : bytes) : Prop := hd_error (rev l) = Some x.

(** ** Runs and payloads as data *)

(** The bytes of the input that one call [write_fn(curr_byte, count)]
    stands for. *)
Definition run_expansion (run : byte * Z) : bytes :=
  repeat (fst run) (Z.to_nat (snd run)).

(** Two calls in a row are for the same byte only when the first has the
    full count. *)
Fixpoint full_before_same (rs : list (byte * Z)) : Prop :=
  match rs with
  | [] => True
  | r1 :: rs' =>
      match rs' with
      | [] => True
      | r2 :: _ => (fst r1 = fst r2 -> snd r1 = 255) /\ full_before_same rs'
      end
  end.

(** No byte of [b] is followed by an equal byte. *)
Fixpoint no_adjacent_equal (b : bytes) : Prop :=
  match b with
  | [] => True
  | x :: b' =>
      match b' with
      | [] => True
      | y :: _ => x <> y /\ no_adjacent_equal b'
      end
  end.

(** A Method A payload as pairs (count byte, data byte). *)
Definition pair_bytes (p : byte * byte) : bytes := [fst p; snd p].

Definition pair_expansion (p : byte * byte) : bytes :=
  repeat (snd p) (count_of (fst p)).

(** ** pycoder.py

    The paths the script passes to [encode_rle] and [decode_rle] for the
    command line argument [FILE].  A Python [str] is modelled as a [string];
    its characters are only counted, appended and dropped. *)

(** [out_file_path = args['FILE'] + ".rle"] *)
Definition encode_out_file_path (FILE : String.string) : String.string :=
  String.append FILE ".rle".

(** [out_file_path = args['FILE'][:-4:]] *)
Definition decode_out_file_path (FILE : String.string) : String.string :=
  String.substring 0 (String.length FILE - 4) FILE.

(** * Properties *)

Arguments Byte.to_N : simpl never.
Arguments Byte.of_N : simpl never.
Arguments Byte.eqb : simpl never.

(** ** Bytes and ints *)

Lemma byte_eqb_refl (x : byte) : Byte.eqb x x = true.
Proof. now apply Byte.byte_dec_lb. Qed.

Lemma byte_eqb_neq (x y : byte) : x <> y -> Byte.eqb x y = false.
Proof.
  intros Hne. destruct (Byte.eqb x y) eqn:E; [|reflexivity].
  now apply Byte.byte_dec_bl in E.
Qed.

Lemma to_N_range (x : byte) : 0 <= Z.of_N (Byte.to_N x) <= 255.
Proof. pose proof (Byte.to_N_bounded x); lia. Qed.

Lemma byte_of_Z_to_N (x : byte) : byte_of_Z (Z.of_N (Byte.to_N x)) = x.
Proof. unfold byte_of_Z. now rewrite N2Z.id, Byte.of_to_N. Qed.

Lemma to_N_byte_of_Z (n : Z) :
  0 <= n <= 255 -> Z.of_N (Byte.to_N (byte_of_Z n)) = n.
Proof.
  intros Hn. unfold byte_of_Z.
  destruct (Byte.of_N (Z.to_N n)) as [b|] eqn:E.
  - apply Byte.to_of_N in E. rewrite E. lia.
  - apply Byte.of_N_None_iff in E. lia.
Qed.

Lemma count_of_byte_of_Z (n : Z) :
  0 <= n <= 255 -> count_of (byte_of_Z n) = Z.to_nat n.
Proof. intros Hn. unfold count_of. now rewrite to_N_byte_of_Z. Qed.

Lemma _int_to_byte_in_range (n : Z) (st : io) :
  0 <= n <= 255 -> _int_to_byte n st = (st, Ret [byte_of_Z n]).
Proof.
  intros Hn. unfold _int_to_byte, byte_of_Z.
  replace ((0 <=? n) && (n <? 256)) with true by (symmetry; apply andb_true_iff; lia).
  destruct (Byte.of_N (Z.to_N n)) as [b|] eqn:E; [reflexivity|].
  apply Byte.of_N_None_iff in E. lia.
Qed.

Lemma _int_to_byte_of_byte (x : byte) (st : io) :
  _int_to_byte (Z.of_N (Byte.to_N x)) st = (st, Ret [x]).
Proof.
  rewrite _int_to_byte_in_range by apply to_N_range.
  now rewrite byte_of_Z_to_N.
Qed.

Lemma bytes_mul_single (n : Z) (x : byte) :
  bytes_mul n [x] = repeat x (Z.to_nat n).
Proof.
  unfold bytes_mul. induction (Z.to_nat n) as [|k IH]; simpl; [reflexivity|].
  now rewrite IH.
Qed.

(** ** Reading *)

Lemma skipn_step {T} (l : list T) (p : nat) (x : T) (r : list T) :
  skipn p l = x :: r -> skipn (p + 1) l = r.
Proof.
  intros H. rewrite Nat.add_comm, <- skipn_skipn, H. reflexivity.
Qed.

Lemma read_at (n : nat) (cont : bytes) (p : nat) (out rem : bytes) :
  skipn p cont = rem ->
  read n (mkIO (mkReader cont p) out) =
  (mkIO (mkReader cont (p + length (firstn n rem))) out, Ret (firstn n rem)).
Proof. intros <-. reflexivity. Qed.

Lemma read1_end (cont : bytes) (p : nat) (out : bytes) :
  skipn p cont = [] ->
  read 1 (mkIO (mkReader cont p) out) = (mkIO (mkReader cont p) out, Ret []).
Proof.
  intros H. rewrite (read_at 1 cont p out [] H). simpl.
  now rewrite Nat.add_0_r.
Qed.

Lemma read1_byte (cont : bytes) (p : nat) (out : bytes) (x : byte) (r : bytes) :
  skipn p cont = x :: r ->
  read 1 (mkIO (mkReader cont p) out) = (mkIO (mkReader cont (p + 1)) out, Ret [x]).
Proof. intros H. now rewrite (read_at 1 cont p out _ H). Qed.

(** ** The encoder loop *)

Section DoEncode.

Variable write_fn : bytes -> Z -> M unit.
Variable emit_run : byte * Z -> bytes.

Hypothesis write_fn_emits : forall (c : byte) (n : Z) (st : io),
    1 <= n <= 255 ->
    write_fn [c] n st = (mkIO (in_file st) (out_file st ++ emit_run (c, n)), Ret tt).

Lemma _do_encode_loop_runs (rest : bytes) :
  forall (fuel : nat) (cont : bytes) (p : nat) (out : bytes) (c : byte) (n : Z),
    skipn p cont = rest ->
    (length rest < fuel)%nat ->
    1 <= n <= 255 ->
    exists st',
      _do_encode_loop fuel write_fn [c] n (mkIO (mkReader cont p) out)
      = (st', Ret tt)
      /\ out_file st' = out ++ flat_map emit_run (runs_from c n rest).
Proof.
  induction rest as [|x r IH]; intros fuel cont p out c n Hrem Hfuel Hn;
    (destruct fuel as [|fuel]; [simpl in Hfuel; lia|]).
  - cbn [_do_encode_loop]. unfold bind.
    rewrite (read1_end _ _ _ Hrem). cbn [bytes_eqb truthy].
    rewrite write_fn_emits by assumption.
    eexists; split; [reflexivity|]. simpl. now rewrite app_nil_r.
  - cbn [_do_encode_loop]. unfold bind at 1.
    rewrite (read1_byte _ _ _ _ _ Hrem). cbn [bytes_eqb runs_from].
    rewrite andb_true_r.
    pose proof (skipn_step _ _ _ _ Hrem) as Hrem'.
    simpl in Hfuel.
    destruct (Byte.eqb x c) eqn:Exc.
    + destruct (n + 1 =? 256) eqn:E256.
      * unfold bind at 1. rewrite write_fn_emits by lia.
        cbn [in_file out_file].
        destruct (IH fuel cont (p + 1)%nat (out ++ emit_run (c, n + 1 - 1)) c 1
                    Hrem' ltac:(lia) ltac:(lia)) as (st' & Hrun & Ho).
        exists st'. split; [exact Hrun|]. rewrite Ho. cbn [flat_map].
        now rewrite app_assoc.
      * apply Z.eqb_neq in E256.
        apply (IH fuel cont (p + 1)%nat out c (n + 1) Hrem'); lia.
    + unfold bind at 1. rewrite write_fn_emits by lia.
      cbn [in_file out_file].
      destruct (IH fuel cont (p + 1)%nat (out ++ emit_run (c, n)) x 1
                  Hrem' ltac:(lia) ltac:(lia)) as (st' & Hrun & Ho).
      exists st'. split; [exact Hrun|]. rewrite Ho. cbn [flat_map].
      now rewrite app_assoc.
Qed.

Lemma _do_encode_runs (b out : bytes) :
  exists st',
    _do_encode write_fn (mkIO (mkReader b 0) out) = (st', Ret tt)
    /\ out_file st' = out ++ flat_map emit_run (runs b).
Proof.
  unfold _do_encode, bind. destruct b as [|x r].
  - rewrite read1_end by reflexivity. simpl.
    eexists; split; [reflexivity|]. simpl. now rewrite app_nil_r.
  - rewrite (read1_byte _ _ _ x r) by reflexivity.
    apply _do_encode_loop_runs; [reflexivity| |lia].
    unfold remaining. simpl. lia.
Qed.

End DoEncode.

Lemma write_fn_mA_emits (c : byte) (n : Z) (st : io) :
  1 <= n <= 255 ->
  write_fn_mA [c] n st = (mkIO (in_file st) (out_file st ++ emit_mA (c, n)), Ret tt).
Proof.
  intros Hn. unfold write_fn_mA, bind.
  rewrite _int_to_byte_in_range by lia.
  unfold write, emit_mA. cbn [in_file out_file fst snd].
  now rewrite <- app_assoc.
Qed.

Lemma write_fn_mB_emits (c : byte) (n : Z) (st : io) :
  1 <= n <= 255 ->
  write_fn_mB [c] n st = (mkIO (in_file st) (out_file st ++ emit_mB (c, n)), Ret tt).
Proof.
  intros Hn. unfold write_fn_mB, emit_mB, bind. cbn [fst snd write].
  destruct (1 <? n).
  - rewrite _int_to_byte_in_range by lia.
    unfold write. cbn [in_file out_file]. now rewrite <- !app_assoc.
  - reflexivity.
Qed.

(** On every input the encoders return, having appended [payload m b]. *)
Lemma encode_fn_payload (m : RLEMethod) (b out : bytes) :
  exists st',
    (match m with A => _encode_mA | B => _encode_mB end) (mkIO (mkReader b 0) out)
    = (st', Ret tt)
    /\ out_file st' = out ++ payload m b.
Proof.
  destruct m.
  - apply (_do_encode_runs write_fn_mA emit_mA write_fn_mA_emits).
  - apply (_do_encode_runs write_fn_mB emit_mB write_fn_mB_emits).
Qed.

(** ** The decoder loops *)

Lemma _decode_mA_loop_decoded (fuel : nat) :
  forall (cont : bytes) (p : nat) (out rem : bytes),
    skipn p cont = rem ->
    (length rem < fuel)%nat ->
    exists st',
      _decode_mA_loop fuel (mkIO (mkReader cont p) out) = (st', snd (decoded_mA rem))
      /\ out_file st' = out ++ fst (decoded_mA rem).
Proof.
  induction fuel as [|fuel IH]; intros cont p out rem Hrem Hfuel; [lia|].
  cbn [_decode_mA_loop]. unfold bind at 1.
  rewrite (read_at 2 cont p out rem Hrem).
  destruct rem as [|c [|x r]].
  - simpl. eexists; split; [reflexivity|]. simpl. now rewrite app_nil_r.
  - simpl. eexists; split; [reflexivity|]. simpl. now rewrite app_nil_r.
  - cbn [firstn length]. unfold bind at 1.
    rewrite _int_to_byte_of_byte. unfold bind at 1. cbn [write in_file out_file].
    rewrite bytes_mul_single.
    assert (Hrem' : skipn (p + 2) cont = r).
    { replace (p + 2)%nat with (p + 1 + 1)%nat by lia.
      eapply skipn_step, skipn_step, Hrem. }
    simpl in Hfuel.
    destruct (IH cont (p + 2)%nat
                (out ++ repeat x (Z.to_nat (Z.of_N (Byte.to_N c)))) r Hrem'
                ltac:(lia)) as (st' & Hrun & Ho).
    exists st'. cbn [decoded_mA]. destruct (decoded_mA r) as [o res].
    cbn [fst snd] in *. split; [exact Hrun|].
    rewrite Ho. unfold count_of. now rewrite app_assoc.
Qed.

Lemma seek_back_one (cont : bytes) (p : nat) (out : bytes) :
  seek_cur (-1) (mkIO (mkReader cont (p + 1 + 1)) out)
  = (mkIO (mkReader cont (p + 1)) out, Ret tt).
Proof.
  unfold seek_cur. cbn [in_file pos content out_file].
  replace (Z.of_nat (p + 1 + 1) + -1) with (Z.of_nat (p + 1)) by lia.
  destruct (Z.ltb_spec (Z.of_nat (p + 1)) 0) as [Hneg|_]; [lia|].
  now rewrite Nat2Z.id.
Qed.

Lemma decoded_mB_pair (b1 b2 : byte) (tl2 : bytes) :
  decoded_mB (b1 :: b2 :: tl2) =
  if Byte.eqb b1 b2 then
    match tl2 with
    | [] => ([], Raise IndexError_b3)
    | b3 :: rest =>
        let (o, r) := decoded_mB rest in (repeat b1 (count_of b3) ++ o, r)
    end
  else let (o, r) := decoded_mB (b2 :: tl2) in (b1 :: o, r).
Proof. reflexivity. Qed.

Lemma _decode_mB_loop_decoded (fuel : nat) :
  forall (cont : bytes) (p : nat) (out rem : bytes),
    skipn p cont = rem ->
    (length rem < fuel)%nat ->
    exists st',
      _decode_mB_loop fuel (mkIO (mkReader cont p) out) = (st', snd (decoded_mB rem))
      /\ out_file st' = out ++ fst (decoded_mB rem).
Proof.
  induction fuel as [|fuel IH]; intros cont p out rem Hrem Hfuel; [lia|].
  cbn [_decode_mB_loop]. unfold bind at 1.
  destruct rem as [|b1 tl].
  - rewrite (read1_end _ _ _ Hrem). unfold bind at 1.
    rewrite (read1_end _ _ _ Hrem). simpl.
    eexists; split; [reflexivity|]. simpl. now rewrite app_nil_r.
  - rewrite (read1_byte _ _ _ _ _ Hrem). unfold bind at 1.
    pose proof (skipn_step _ _ _ _ Hrem) as Hrem1.
    simpl in Hfuel.
    destruct tl as [|b2 tl2].
    + rewrite (read1_end _ _ _ Hrem1). cbn [truthy negb bytes_eqb].
      unfold bind, ret, write. cbn [in_file out_file].
      destruct (IH cont (p + 1)%nat (out ++ bytes_mul 1 [b1]) [] Hrem1
                  ltac:(simpl; lia)) as (st' & Hrun & Ho).
      exists st'. split; [exact Hrun|]. rewrite Ho. simpl.
      now rewrite app_nil_r.
    + rewrite (read1_byte _ _ _ _ _ Hrem1). cbn [truthy negb bytes_eqb].
      rewrite andb_true_r.
      pose proof (skipn_step _ _ _ _ Hrem1) as Hrem2.
      rewrite decoded_mB_pair. simpl in Hfuel.
      destruct (Byte.eqb b1 b2) eqn:E12.
      * unfold bind at 1. unfold bind at 1.
        destruct tl2 as [|b3 r].
        -- rewrite (read1_end _ _ _ Hrem2). unfold raise.
           eexists; split; [reflexivity|]. simpl. now rewrite app_nil_r.
        -- rewrite (read1_byte _ _ _ _ _ Hrem2).
           unfold bind, ret, write. cbn [in_file out_file].
           pose proof (skipn_step _ _ _ _ Hrem2) as Hrem3.
           simpl in Hfuel.
           destruct (IH cont (p + 1 + 1 + 1)%nat
                       (out ++ bytes_mul (Z.of_N (Byte.to_N b3)) [b1]) r Hrem3
                       ltac:(lia)) as (st' & Hrun & Ho).
           exists st'. destruct (decoded_mB r) as [o res].
           cbn [fst snd] in *. split; [exact Hrun|].
           rewrite Ho, bytes_mul_single. unfold count_of.
           now rewrite app_assoc.
      * unfold bind at 1. unfold bind at 1. unfold bind at 1.
        rewrite seek_back_one.
        unfold bind, ret, write. cbn [in_file out_file].
        destruct (IH cont (p + 1)%nat (out ++ bytes_mul 1 [b1]) (b2 :: tl2) Hrem1
                    ltac:(simpl; lia)) as (st' & Hrun & Ho).
        exists st'. destruct (decoded_mB (b2 :: tl2)) as [o res].
        cbn [fst snd] in *. split; [exact Hrun|].
        rewrite Ho. simpl. now rewrite <- app_assoc.
Qed.

(** ** The entry points in closed form *)

Lemma encode_rle_member (md : rle_module) (clock : Z) (m : RLEMethod)
      (b : bytes) (ts : option bytes) :
  encode_rle md clock (Member m) b ts =
  mkResult (Some (value m ++ effective_ts md ts ++ payload m b)) (Ret tt).
Proof.
  unfold encode_rle. fold (effective_ts md ts).
  unfold bind at 1. unfold write at 1. cbn [in_file out_file app].
  unfold bind at 1. unfold write at 1. cbn [in_file out_file].
  destruct (encode_fn_payload m b (value m ++ effective_ts md ts))
    as (st' & Hrun & Ho).
  rewrite Hrun, Ho. now rewrite <- app_assoc.
Qed.

Lemma skipn_length_firstn {T} (n : nat) (l : list T) :
  skipn (length (firstn n l)) l = skipn n l.
Proof.
  revert l; induction n as [|n IH]; intros [|x l]; simpl; auto.
Qed.

Lemma decode_rle_member (m : RLEMethod) (rest : bytes) :
  decode_rle (value m ++ rest) =
  finish m (firstn 4 rest) (decoded m (skipn 4 rest)).
Proof.
  unfold decode_rle.
  assert (Htag : forall out,
             read 1 (mkIO (mkReader (value m ++ rest) 0) out)
             = (mkIO (mkReader (value m ++ rest) 1) out, Ret (value m)))
    by (intros; destruct m; reflexivity).
  unfold bind at 1. rewrite Htag.
  unfold bind at 1.
  assert (Hm : RLEMethod_of_value (value m) = Ret m) by (destruct m; reflexivity).
  rewrite Hm.
  assert (Hrest : skipn 1 (value m ++ rest) = rest) by (destruct m; reflexivity).
  unfold bind at 1. rewrite (read_at 4 _ 1 [] rest Hrest). unfold ret.
  assert (Hpay : skipn (1 + length (firstn 4 rest)) (value m ++ rest) = skipn 4 rest).
  { rewrite Nat.add_comm, <- skipn_skipn, Hrest. apply skipn_length_firstn. }
  unfold finish. destruct m; cbn [decoded].
  - unfold _decode_mA, remaining. cbn [in_file pos content]. rewrite Hpay.
    destruct (_decode_mA_loop_decoded (S (length (skipn 4 rest))) _ _ [] _ Hpay
                ltac:(lia)) as (st' & Hrun & Ho).
    rewrite Hrun. simpl in Ho. rewrite Ho.
    destruct (snd (decoded_mA (skipn 4 rest))) as [[]| |]; reflexivity.
  - unfold _decode_mB, remaining. cbn [in_file pos content]. rewrite Hpay.
    destruct (_decode_mB_loop_decoded (S (length (skipn 4 rest))) _ _ [] _ Hpay
                ltac:(lia)) as (st' & Hrun & Ho).
    rewrite Hrun. simpl in Ho. rewrite Ho.
    destruct (snd (decoded_mB (skipn 4 rest))) as [[]| |]; reflexivity.
Qed.

Lemma decode_rle_not_a_method (in_bytes : bytes) :
  RLEMethod_of_value (firstn 1 in_bytes) = Raise ValueError_not_a_method ->
  decode_rle in_bytes = mkResult None (Raise ValueError_not_a_method).
Proof.
  intros H. unfold decode_rle.
  unfold bind at 1. rewrite (read_at 1 in_bytes 0 [] in_bytes eq_refl).
  unfold bind at 1. now rewrite H.
Qed.

(** The loop bounds of the model are never used up. *)
Lemma decoded_returns_or_raises (m : RLEMethod) (p : bytes) :
  snd (decoded m p) <> OutOfFuel.
Proof.
  destruct m; cbn [decoded].
  - assert (H : forall n p, (length p < n)%nat -> snd (decoded_mA p) <> OutOfFuel).
    { induction n as [|n IH]; intros q Hq; [lia|].
      destruct q as [|c [|x r]]; simpl; try discriminate.
      specialize (IH r). simpl in Hq.
      destruct (decoded_mA r); simpl in *. apply IH. lia. }
    apply (H (S (length p))). lia.
  - assert (H : forall n p, (length p < n)%nat -> snd (decoded_mB p) <> OutOfFuel).
    { induction n as [|n IH]; intros q Hq; [lia|].
      destruct q as [|b1 [|b2 tl2]]; try (simpl; discriminate).
      rewrite decoded_mB_pair. simpl in Hq. destruct (Byte.eqb b1 b2).
      - destruct tl2 as [|b3 r]; [simpl; discriminate|].
        specialize (IH r). simpl in Hq.
        destruct (decoded_mB r); simpl in *. apply IH. lia.
      - specialize (IH (b2 :: tl2)).
        destruct (decoded_mB (b2 :: tl2)); simpl in *. apply IH. lia. }
    apply (H (S (length p))). lia.
Qed.

(** ** Decoding what the encoder wrote *)

Lemma repeat_snoc_app {T} (x : T) (k : nat) (r : list T) :
  repeat x k ++ x :: r = repeat x (S k) ++ r.
Proof. induction k as [|k IH]; simpl; [reflexivity|]. now rewrite IH. Qed.

Lemma repeat_succ_Z (x : byte) (n : Z) (r : bytes) :
  0 <= n -> repeat x (Z.to_nat n) ++ x :: r = repeat x (Z.to_nat (n + 1)) ++ r.
Proof.
  intros Hn. rewrite repeat_snoc_app. f_equal. f_equal. lia.
Qed.

Lemma decoded_mA_emit (c : byte) (n : Z) (p : bytes) :
  0 <= n <= 255 ->
  decoded_mA (emit_mA (c, n) ++ p) =
  (repeat c (Z.to_nat n) ++ fst (decoded_mA p), snd (decoded_mA p)).
Proof.
  intros Hn. unfold emit_mA. cbn [fst snd app decoded_mA].
  rewrite count_of_byte_of_Z by assumption.
  now destruct (decoded_mA p).
Qed.

Lemma decoded_mA_runs_from (rest : bytes) :
  forall (c : byte) (n : Z),
    1 <= n <= 255 ->
    decoded_mA (flat_map emit_mA (runs_from c n rest)) =
    (repeat c (Z.to_nat n) ++ rest, Ret tt).
Proof.
  induction rest as [|x r IH]; intros c n Hn; cbn [runs_from].
  - cbn [flat_map]. rewrite decoded_mA_emit by lia. reflexivity.
  - destruct (Byte.eqb x c) eqn:Exc.
    + apply Byte.byte_dec_bl in Exc; subst x.
      destruct (Z.eqb_spec (n + 1) 256) as [E|E].
      * cbn [flat_map]. rewrite decoded_mA_emit by lia.
        rewrite (IH c 1) by lia. cbn [fst snd].
        replace (n + 1 - 1) with n by lia. reflexivity.
      * rewrite (IH c (n + 1)) by lia.
        now rewrite repeat_succ_Z by lia.
    + cbn [flat_map]. rewrite decoded_mA_emit by lia.
      rewrite (IH x 1) by lia. reflexivity.
Qed.

Lemma emit_mB_runs_from_head (rest : bytes) :
  forall (c : byte) (n : Z),
    exists tl, flat_map emit_mB (runs_from c n rest) = c :: tl.
Proof.
  assert (Hemit : forall c k p, exists tl, emit_mB (c, k) ++ p = c :: tl).
  { intros c k p. unfold emit_mB. cbn [fst snd].
    destruct (1 <? k); eexists; reflexivity. }
  induction rest as [|x r IH]; intros c n; cbn [runs_from].
  - apply Hemit.
  - destruct (Byte.eqb x c).
    + destruct (n + 1 =? 256); [apply Hemit | apply IH].
    + apply Hemit.
Qed.

Lemma decoded_mB_doubled (c b3 : byte) (p : bytes) :
  decoded_mB (c :: c :: b3 :: p) =
  (repeat c (count_of b3) ++ fst (decoded_mB p), snd (decoded_mB p)).
Proof.
  rewrite decoded_mB_pair, byte_eqb_refl. now destruct (decoded_mB p).
Qed.

Lemma decoded_mB_literal (c : byte) (p : bytes) :
  hd_error p <> Some c ->
  decoded_mB (c :: p) = (c :: fst (decoded_mB p), snd (decoded_mB p)).
Proof.
  intros Hhd. destruct p as [|x tl]; [reflexivity|].
  rewrite decoded_mB_pair, byte_eqb_neq.
  - now destruct (decoded_mB (x :: tl)).
  - intros ->. now apply Hhd.
Qed.

Lemma decoded_mB_runs_from (rest : bytes) :
  forall (c : byte) (n : Z),
    1 <= n <= 255 ->
    decoded_mB (flat_map emit_mB (runs_from c n rest)) =
    (repeat c (Z.to_nat n) ++ rest, Ret tt).
Proof.
  assert (Hrun : forall c k p, 2 <= k <= 255 ->
             decoded_mB (emit_mB (c, k) ++ p) =
             (repeat c (Z.to_nat k) ++ fst (decoded_mB p), snd (decoded_mB p))).
  { intros c k p Hk. unfold emit_mB. cbn [fst snd].
    destruct (Z.ltb_spec 1 k) as [_|Hle]; [|lia].
    cbn [app]. rewrite decoded_mB_doubled.
    now rewrite count_of_byte_of_Z by lia. }
  assert (Hone : forall c p, emit_mB (c, 1) ++ p = c :: p) by reflexivity.
  induction rest as [|x r IH]; intros c n Hn; cbn [runs_from].
  - cbn [flat_map]. destruct (Z.eq_dec n 1) as [->|Hn1].
    + reflexivity.
    + rewrite Hrun by lia. reflexivity.
  - destruct (Byte.eqb x c) eqn:Exc.
    + apply Byte.byte_dec_bl in Exc; subst x.
      destruct (Z.eqb_spec (n + 1) 256) as [E|E].
      * cbn [flat_map]. rewrite Hrun by lia.
        rewrite (IH c 1) by lia. cbn [fst snd].
        replace (n + 1 - 1) with n by lia. reflexivity.
      * rewrite (IH c (n + 1)) by lia.
        now rewrite repeat_succ_Z by lia.
    + cbn [flat_map]. destruct (Z.eq_dec n 1) as [->|Hn1].
      * rewrite Hone.
        destruct (emit_mB_runs_from_head r x 1) as [tl Htl].
        rewrite decoded_mB_literal.
        -- rewrite (IH x 1) by lia. reflexivity.
        -- rewrite Htl. cbn [hd_error]. intros [= ->].
           now rewrite byte_eqb_refl in Exc.
      * rewrite Hrun by lia. rewrite (IH x 1) by lia. reflexivity.
Qed.

Lemma decoded_payload (m : RLEMethod) (b : bytes) :
  decoded m (payload m b) = (b, Ret tt).
Proof.
  unfold payload, runs. destruct b as [|x r].
  - destruct m; reflexivity.
  - destruct m; cbn [decoded emit].
    + now rewrite decoded_mA_runs_from by lia.
    + now rewrite decoded_mB_runs_from by lia.
Qed.

Lemma to_bytes_length (n : Z) (len : nat) (b : bytes) :
  to_bytes n len = Ret b -> length b = len.
Proof.
  unfold to_bytes. destruct ((n <? 0) || (256 ^ Z.of_nat len <=? n)); [discriminate|].
  intros [= <-]. revert n. induction len as [|len IH]; intros n; simpl; [reflexivity|].
  rewrite length_app, IH. simpl. lia.
Qed.

Lemma def_encode_rle_ts_length (clock : Z) (md : rle_module) :
  def_encode_rle clock = Ret md -> length (ts_default md) = 4%nat.
Proof.
  unfold def_encode_rle. destruct (to_bytes clock 4) as [b| |] eqn:E; try discriminate.
  intros [= <-]. exact (to_bytes_length _ _ _ E).
Qed.

Lemma firstn_skipn_header {T} (ts p : list T) :
  length ts = 4%nat -> firstn 4 (ts ++ p) = ts /\ skipn 4 (ts ++ p) = p.
Proof.
  destruct ts as [|t1 [|t2 [|t3 [|t4 [|t5 ts]]]]]; try discriminate.
  intros _. split; reflexivity.
Qed.

Lemma round_trip_ts (md : rle_module) (clock : Z) (m : RLEMethod) (b : bytes)
      (ts : option bytes) :
  length (effective_ts md ts) = 4%nat ->
  exists enc,
    encode_rle md clock (Member m) b ts = mkResult (Some enc) (Ret tt)
    /\ decode_rle enc = mkResult (Some b) (Ret (m, effective_ts md ts)).
Proof.
  intros Hts. eexists. split; [apply encode_rle_member|].
  rewrite decode_rle_member.
  destruct (firstn_skipn_header (effective_ts md ts) (payload m b) Hts) as [-> ->].
  now rewrite decoded_payload.
Qed.

(** ** Runs and their chunks *)

Lemma runs_from_same (k : nat) :
  forall (c : byte) (n : Z) (rest : bytes),
    1 <= n ->
    n + Z.of_nat k <= 255 ->
    runs_from c n (repeat c k ++ rest) = runs_from c (n + Z.of_nat k) rest.
Proof.
  induction k as [|k IH]; intros c n rest Hn Hk.
  - simpl. now rewrite Z.add_0_r.
  - cbn [repeat app runs_from]. rewrite byte_eqb_refl.
    destruct (Z.eqb_spec (n + 1) 256) as [E|E]; [lia|].
    rewrite IH by lia. f_equal. lia.
Qed.

Lemma runs_from_full_chunk (c : byte) (rest : bytes) :
  runs_from c 1 (repeat c 255 ++ rest) = (c, 255) :: runs_from c 1 rest.
Proof.
  change (repeat c 255) with (repeat c 254 ++ [c]).
  rewrite <- app_assoc, runs_from_same by lia.
  cbn [app runs_from Nat.add]. rewrite byte_eqb_refl. reflexivity.
Qed.

Lemma repeat_add_app {T} (x : T) (a b : nat) :
  repeat x (a + b) = repeat x a ++ repeat x b.
Proof. apply repeat_app. Qed.

Lemma runs_from_chunks (k : nat) (c : byte) (rest : bytes) :
  runs_from c 1 (repeat c (255 * k) ++ rest) =
  repeat (c, 255) k ++ runs_from c 1 rest.
Proof.
  induction k as [|k IH]; [reflexivity|].
  replace (255 * S k)%nat with (255 + 255 * k)%nat by lia.
  rewrite repeat_add_app, <- app_assoc, runs_from_full_chunk, IH.
  reflexivity.
Qed.

Lemma last_cons_default {T} (l : list T) (x d : T) :
  last (x :: l) d = last l x.
Proof.
  revert x d. induction l as [|y l IH]; intros x d; [reflexivity|].
  change (last (x :: y :: l) d) with (last (y :: l) d).
  rewrite IH. symmetry. apply IH.
Qed.

Lemma runs_from_boundary (r1 : bytes) :
  forall (c : byte) (n : Z) (y : byte) (r2 : bytes),
    last r1 c <> y ->
    runs_from c n (r1 ++ y :: r2) = runs_from c n r1 ++ runs_from y 1 r2.
Proof.
  induction r1 as [|x r1 IH]; intros c n y r2 Hlast.
  - simpl in Hlast. cbn [app runs_from].
    rewrite byte_eqb_neq by congruence. reflexivity.
  - rewrite last_cons_default in Hlast.
    cbn [app runs_from].
    destruct (Byte.eqb x c) eqn:Exc.
    + apply Byte.byte_dec_bl in Exc; subst x.
      destruct (n + 1 =? 256); rewrite IH by assumption; reflexivity.
    + rewrite IH by assumption. reflexivity.
Qed.

Lemma ends_with_last (x y : byte) (l : bytes) :
  ~ ends_with y (x :: l) -> last l x <> y.
Proof.
  unfold ends_with. intros H E. apply H. clear H. subst y.
  revert x. induction l as [|z l IH]; intros x; [reflexivity|].
  rewrite last_cons_default.
  change (rev (x :: z :: l)) with (rev (z :: l) ++ [x]).
  specialize (IH z). destruct (rev (z :: l)); [discriminate|exact IH].
Qed.

(** The encoder works run by run: where one part of the input does not end
    with the byte the next part starts with, the payload of the whole is the
    payloads of the parts, one after the other. *)
Lemma payload_app (m : RLEMethod) (l1 l2 : bytes) :
  (forall y, starts_with y l2 -> ~ ends_with y l1) ->
  payload m (l1 ++ l2) = payload m l1 ++ payload m l2.
Proof.
  intros Hsep. unfold payload.
  destruct l1 as [|x r1]; [reflexivity|].
  destruct l2 as [|y r2]; [now rewrite !app_nil_r|].
  cbn [app runs]. rewrite runs_from_boundary.
  - apply flat_map_app.
  - apply ends_with_last, Hsep. reflexivity.
Qed.

Lemma payload_mB_run_of_chunks_plus_one (x : byte) (k : nat) :
  payload B (repeat x (255 * k + 1)) = concat (repeat [x; x; xff] k) ++ [x].
Proof.
  unfold payload. rewrite Nat.add_1_r. cbn [repeat runs].
  rewrite <- (app_nil_r (repeat x (255 * k))), runs_from_chunks.
  rewrite flat_map_app. cbn [runs_from flat_map emit emit_mB fst snd].
  f_equal.
  induction k as [|j IH]; [reflexivity|].
  cbn [repeat flat_map concat]. now rewrite IH.
Qed.

(** ** Method B payloads item by item *)

Lemma decoded_mB_items (items : list item) (next : bytes) :
  separated items next ->
  decoded_mB (flat_map item_bytes items ++ next) =
  (flat_map item_expansion items ++ fst (decoded_mB next), snd (decoded_mB next)).
Proof.
  induction items as [|[x|x c] items IH]; intros Hsep.
  - simpl. now destruct (decoded_mB next).
  - destruct Hsep as [Hhd Hsep].
    cbn [flat_map item_bytes item_expansion app].
    rewrite decoded_mB_literal by exact Hhd.
    rewrite (IH Hsep). reflexivity.
  - cbn [flat_map item_bytes item_expansion app].
    rewrite decoded_mB_doubled, (IH Hsep). cbn [fst snd].
    now rewrite app_assoc.
Qed.

Lemma decoded_mA_odd (n : nat) :
  forall p : bytes,
    (length p < n)%nat ->
    Nat.odd (length p) = true ->
    snd (decoded_mA p) = Raise ValueError_unpack.
Proof.
  induction n as [|n IH]; intros p Hn Hodd; [lia|].
  destruct p as [|c [|x r]]; [discriminate|reflexivity|].
  cbn [decoded_mA]. specialize (IH r).
  destruct (decoded_mA r) as [o res]. cbn [snd] in *.
  apply IH; [simpl in Hn; lia|].
  exact Hodd.
Qed.

Lemma from_bytes_big_endian (len : nat) :
  forall n : Z, 0 <= n < 256 ^ Z.of_nat len -> from_bytes (big_endian len n) = n.
Proof.
  unfold from_bytes.
  induction len as [|len IH]; intros n Hn.
  - simpl in *. lia.
  - cbn [big_endian]. rewrite fold_left_app. cbn [fold_left].
    rewrite Nat2Z.inj_succ, Z.pow_succ_r in Hn by lia.
    rewrite IH by (split; [apply Z.div_pos; lia | apply Z.div_lt_upper_bound; lia]).
    rewrite to_N_byte_of_Z by (pose proof (Z.mod_pos_bound n 256); lia).
    pose proof (Z.div_mod n 256). lia.
Qed.

Lemma encode_rle_stamps_definition_time (clock_def : Z) (md : rle_module)
      (clock : Z) (m : RLEMethod) (b : bytes) :
  def_encode_rle clock_def = Ret md ->
  encode_rle md clock (Member m) b None
  = mkResult (Some (value m ++ ts_default md ++ payload m b)) (Ret tt)
  /\ length (ts_default md) = 4%nat
  /\ from_bytes (ts_default md) = clock_def.
Proof.
  intros Hdef. split; [apply encode_rle_member|].
  split; [exact (def_encode_rle_ts_length _ _ Hdef)|].
  unfold def_encode_rle, to_bytes in Hdef.
  destruct (Z.ltb_spec clock_def 0) as [Hneg|Hpos]; [discriminate|].
  destruct (Z.leb_spec (256 ^ Z.of_nat 4) clock_def) as [Hbig|Hsmall];
    [discriminate|].
  cbn [orb] in Hdef. injection Hdef as <-. cbn [ts_default].
  apply (from_bytes_big_endian 4). lia.
Qed.

Lemma ends_with_repeat (x y : byte) (n : nat) : ends_with y (repeat x n) -> y = x.
Proof.
  unfold ends_with. rewrite rev_repeat. destruct n as [|n]; [discriminate|].
  cbn [repeat hd_error]. congruence.
Qed.

Lemma unknown_tag_not_a_method (in_bytes : bytes) :
  ~ starts_with x21 in_bytes ->
  ~ starts_with x8a in_bytes ->
  decode_rle in_bytes = mkResult None (Raise ValueError_not_a_method).
Proof.
  intros HA HB.
  apply decode_rle_not_a_method. unfold RLEMethod_of_value.
  destruct in_bytes as [|t rest]; [reflexivity|].
  cbn [firstn value bytes_eqb]. rewrite !andb_true_r.
  rewrite (byte_eqb_neq t x21) by (intros ->; now apply HA).
  rewrite (byte_eqb_neq t x8a) by (intros ->; now apply HB).
  reflexivity.
Qed.

(** Every call returns or raises: the loop bounds are never used up. *)
Lemma encode_rle_total (md : rle_module) (clock : Z) (method : pyval)
      (in_bytes : bytes) (ts : option bytes) :
  returned (encode_rle md clock method in_bytes ts) <> OutOfFuel.
Proof.
  destruct method as [m| | |]; try discriminate.
  rewrite encode_rle_member. discriminate.
Qed.

Lemma decode_rle_total (in_bytes : bytes) :
  returned (decode_rle in_bytes) <> OutOfFuel.
Proof.
  assert (Hfin : forall m rest, returned (decode_rle (value m ++ rest)) <> OutOfFuel).
  { intros m rest. rewrite decode_rle_member. unfold finish. cbn [returned].
    pose proof (decoded_returns_or_raises m (skipn 4 rest)) as Hd.
    destruct (snd (decoded m (skipn 4 rest))); [discriminate..|congruence]. }
  destruct in_bytes as [|t rest].
  - rewrite unknown_tag_not_a_method; discriminate.
  - destruct (Byte.byte_eq_dec t x21) as [->|HnA]; [apply (Hfin A)|].
    destruct (Byte.byte_eq_dec t x8a) as [->|HnB]; [apply (Hfin B)|].
    rewrite unknown_tag_not_a_method;
      [discriminate | unfold starts_with; cbn [hd_error]; congruence ..].
Qed.

(** ** The claims *)

(** C1. Round trip: for every byte sequence [b] and each method [m],
    [encode_rle] returns having written a container that [decode_rle] reads
    back as method [m], the timestamp the module defined, and exactly [b] as
    the decompressed bytes. *)
Theorem round_trip (clock_def : Z) (md : rle_module) (clock : Z)
        (m : RLEMethod) (b : bytes) :
  def_encode_rle clock_def = Ret md ->
  exists enc,
    encode_rle md clock (Member m) b None = mkResult (Some enc) (Ret tt)
    /\ decode_rle enc = mkResult (Some b) (Ret (m, ts_default md)).
Proof.
  intros Hdef.
  apply (round_trip_ts md clock m b None).
  exact (def_encode_rle_ts_length _ _ Hdef).
Qed.

Lemma round_trip_witness :
  def_encode_rle 1667000000 = Ret (mkModule [x63; x5c; x66; xc0])
  /\ exists enc,
      encode_rle (mkModule [x63; x5c; x66; xc0]) 1667000100 (Member B)
                 [x4c; x4c; x4c; x4c; x41; x52; x52; x42] None
      = mkResult (Some enc) (Ret tt)
      /\ decode_rle enc
         = mkResult (Some [x4c; x4c; x4c; x4c; x41; x52; x52; x42])
                    (Ret (B, [x63; x5c; x66; xc0])).
Proof.
  split; [reflexivity|].
  apply (round_trip 1667000000). reflexivity.
Defined.

(** C2, as the code has it. In a Method B payload a maximal run of
    [255 * k + 1] equal bytes ([k >= 1]) is written as [k] doubled bytes
    with count 255 followed by the last byte once, as a plain byte with no
    count byte. *)
Theorem final_chunk_of_one_is_literal (md : rle_module) (clock : Z)
        (ts : option bytes) (pre post : bytes) (x : byte) (k : nat) :
  (1 <= k)%nat ->
  ~ ends_with x pre ->
  ~ starts_with x post ->
  encode_rle md clock (Member B) (pre ++ repeat x (255 * k + 1) ++ post) ts
  = mkResult
      (Some (header B (effective_ts md ts)
             ++ payload B pre
             ++ (concat (repeat [x; x; xff] k) ++ [x])
             ++ payload B post))
      (Ret tt).
Proof.
  intros Hk Hpre Hpost. rewrite encode_rle_member. unfold header.
  rewrite <- app_assoc. do 3 f_equal.
  rewrite payload_app.
  - rewrite payload_app.
    + now rewrite payload_mB_run_of_chunks_plus_one.
    + intros y Hy Hend. apply ends_with_repeat in Hend. subst y. now apply Hpost.
  - intros y Hy. rewrite Nat.add_1_r in Hy. cbn in Hy.
    injection Hy as <-. exact Hpre.
Qed.

Lemma final_chunk_of_one_is_literal_witness :
  encode_rle (mkModule [x00; x00; x00; x01]) 0 (Member B)
             ([x42] ++ repeat x41 (255 * 1 + 1) ++ [x43]) None
  = mkResult
      (Some (header B [x00; x00; x00; x01]
             ++ payload B [x42]
             ++ (concat (repeat [x41; x41; xff] 1) ++ [x41])
             ++ payload B [x43]))
      (Ret tt).
Proof.
  apply (final_chunk_of_one_is_literal (mkModule [x00; x00; x00; x01]) 0 None
           [x42] [x43] x41 1).
  - lia.
  - unfold ends_with. simpl. discriminate.
  - unfold starts_with. simpl. discriminate.
Defined.

(** C2 as stated fails: for 256 bytes [A] the last chunk, of length one, is
    not written as the doubled byte with count 1. *)
Lemma final_chunk_of_one_not_doubled :
  written (encode_rle (mkModule [x00; x00; x00; x01]) 0 (Member B)
                      (repeat x41 256) None)
  = Some (header B [x00; x00; x00; x01] ++ [x41; x41; xff] ++ [x41])
  /\ written (encode_rle (mkModule [x00; x00; x00; x01]) 0 (Member B)
                         (repeat x41 256) None)
     <> Some (header B [x00; x00; x00; x01] ++ [x41; x41; xff] ++ [x41; x41; x01]).
Proof.
  split; [vm_compute; reflexivity|].
  vm_compute. intros H. discriminate H.
Qed.

(** C3, what the code does. The module is defined when the clock reads
    1000 s; calls of [encode_rle] that omit [ts], started when the clock reads
    2000 s and 3000 s, both write the four bytes of 1000 at offsets 1..4. *)
Theorem timestamp_is_definition_time_example :
  def_encode_rle 1000 = Ret (mkModule [x00; x00; x03; xe8])
  /\ written (encode_rle (mkModule [x00; x00; x03; xe8]) 2000 (Member A) [] None)
     = Some ([x21] ++ [x00; x00; x03; xe8])
  /\ written (encode_rle (mkModule [x00; x00; x03; xe8]) 3000 (Member A) [] None)
     = Some ([x21] ++ [x00; x00; x03; xe8])
  /\ from_bytes [x00; x00; x03; xe8] = 1000.
Proof. repeat split; vm_compute; reflexivity. Qed.

Lemma runs_256 (x : byte) : runs (repeat x 256) = [(x, 255); (x, 1)].
Proof.
  change (repeat x 256) with (x :: repeat x (255 * 1) ++ []).
  cbn [runs]. rewrite runs_from_chunks. reflexivity.
Qed.

(** C4. Run-length overflow: 256 consecutive occurrences of a byte are
    emitted, under either method, as a run of count 255 followed by a run of
    count 1, and [decode_rle] reconstructs exactly the 256 bytes. *)
Theorem run_of_256_is_split (clock_def : Z) (md : rle_module) (clock : Z)
        (m : RLEMethod) (x : byte) :
  def_encode_rle clock_def = Ret md ->
  let enc := header m (ts_default md)
             ++ match m with
                | A => [xff; x] ++ [x01; x]
                | B => [x; x; xff] ++ [x]
                end in
  runs (repeat x 256) = [(x, 255); (x, 1)]
  /\ encode_rle md clock (Member m) (repeat x 256) None
     = mkResult (Some enc) (Ret tt)
  /\ decode_rle enc = mkResult (Some (repeat x 256)) (Ret (m, ts_default md)).
Proof.
  intros Hdef enc.
  assert (Henc : encode_rle md clock (Member m) (repeat x 256) None
                 = mkResult (Some enc) (Ret tt)).
  { rewrite encode_rle_member. unfold payload. rewrite runs_256.
    subst enc. unfold header. rewrite <- app_assoc.
    destruct m; reflexivity. }
  split; [apply runs_256|]. split; [exact Henc|].
  destruct (round_trip_ts md clock m (repeat x 256) None
              (def_encode_rle_ts_length _ _ Hdef)) as (enc' & Henc' & Hdec).
  rewrite Henc in Henc'. injection Henc' as <-. exact Hdec.
Qed.

Lemma run_of_256_is_split_witness :
  def_encode_rle 1000 = Ret (mkModule [x00; x00; x03; xe8])
  /\ runs (repeat x41 256) = [(x41, 255); (x41, 1)]
  /\ encode_rle (mkModule [x00; x00; x03; xe8]) 2000 (Member B) (repeat x41 256) None
     = mkResult (Some (header B [x00; x00; x03; xe8] ++ [x41; x41; xff] ++ [x41]))
                (Ret tt)
  /\ decode_rle (header B [x00; x00; x03; xe8] ++ [x41; x41; xff] ++ [x41])
     = mkResult (Some (repeat x41 256)) (Ret (B, [x00; x00; x03; xe8])).
Proof.
  split; [reflexivity|].
  apply (run_of_256_is_split 1000 (mkModule [x00; x00; x03; xe8]) 2000 B x41).
  reflexivity.
Defined.

(** C5. Truncated input: with Method A a payload of odd length, and with
    Method B a payload that ends right after a doubled byte, make
    [decode_rle] raise instead of returning a result; both exceptions are
    of the kind [TruncatedInput]. *)
Theorem truncated_input_raises :
  (forall (ts p : bytes),
      length ts = 4%nat ->
      Nat.odd (length p) = true ->
      returned (decode_rle (header A ts ++ p)) = Raise ValueError_unpack)
  /\ (forall (ts : bytes) (items : list item) (x : byte),
         length ts = 4%nat ->
         separated items [x; x] ->
         decode_rle (header B ts ++ flat_map item_bytes items ++ [x; x])
         = mkResult (Some (flat_map item_expansion items)) (Raise IndexError_b3))
  /\ classify ValueError_unpack = Some TruncatedInput
  /\ classify IndexError_b3 = Some TruncatedInput.
Proof.
  split; [|split; [|split; reflexivity]].
  - intros ts p Hts Hodd. unfold header. rewrite <- app_assoc, decode_rle_member.
    destruct (firstn_skipn_header ts p Hts) as [-> ->].
    unfold finish. cbn [returned decoded].
    now rewrite (decoded_mA_odd (S (length p)) p) by (assumption || lia).
  - intros ts items x Hts Hsep. unfold header.
    rewrite <- app_assoc, decode_rle_member.
    destruct (firstn_skipn_header ts (flat_map item_bytes items ++ [x; x]) Hts)
      as [-> ->].
    cbn [decoded]. rewrite decoded_mB_items by exact Hsep.
    rewrite decoded_mB_pair, byte_eqb_refl. unfold finish. cbn [fst snd].
    now rewrite app_nil_r.
Qed.

Lemma truncated_input_raises_witness :
  returned (decode_rle (header A [x00; x00; x03; xe8] ++ [x04; x4c; x01]))
  = Raise ValueError_unpack
  /\ decode_rle (header B [x00; x00; x03; xe8]
                 ++ flat_map item_bytes [Doubled x4c x04; Literal x41]
                 ++ [x52; x52])
     = mkResult (Some (flat_map item_expansion [Doubled x4c x04; Literal x41]))
                (Raise IndexError_b3).
Proof.
  destruct truncated_input_raises as (HA & HB & _).
  split.
  - apply (HA [x00; x00; x03; xe8] [x04; x4c; x01]); reflexivity.
  - apply (HB [x00; x00; x03; xe8] [Doubled x4c x04; Literal x41] x52).
    + reflexivity.
    + simpl. split; [discriminate|exact I].
Defined.

(** C6. Malformed header: when the first byte of the input is neither
    method tag, [decode_rle] raises the exception of kind [UnknownFormat]
    and the output file is never opened, so nothing is written. *)
Theorem unknown_tag_raises (in_bytes : bytes) :
  ~ starts_with x21 in_bytes ->
  ~ starts_with x8a in_bytes ->
  decode_rle in_bytes = mkResult None (Raise ValueError_not_a_method)
  /\ classify ValueError_not_a_method = Some UnknownFormat.
Proof.
  intros HA HB. split; [|reflexivity].
  now apply unknown_tag_not_a_method.
Qed.

Lemma unknown_tag_raises_witness :
  decode_rle [x22; x00; x00; x03; xe8; x01; x41]
  = mkResult None (Raise ValueError_not_a_method)
  /\ classify ValueError_not_a_method = Some UnknownFormat.
Proof.
  apply (unknown_tag_raises [x22; x00; x00; x03; xe8; x01; x41]);
    unfold starts_with; simpl; discriminate.
Defined.

(** C7. Unsupported method: for a [method] that is not a member of
    [RLEMethod], [encode_rle] raises the exception of kind
    [UnsupportedMethod] before either file is opened, so nothing is
    written. *)
Theorem unsupported_method_raises (md : rle_module) (clock : Z)
        (method : pyval) (in_bytes : bytes) (ts : option bytes) :
  (forall m, method <> Member m) ->
  encode_rle md clock method in_bytes ts = mkResult None (Raise KeyError_method)
  /\ classify KeyError_method = Some UnsupportedMethod.
Proof.
  intros Hout. split; [|reflexivity].
  destruct method as [m| | |]; [now destruct (Hout m)|reflexivity..].
Qed.

Lemma unsupported_method_raises_witness :
  encode_rle (mkModule [x00; x00; x03; xe8]) 2000 (PyBytes [x21]) [x41; x41] None
  = mkResult None (Raise KeyError_method)
  /\ classify KeyError_method = Some UnsupportedMethod.
Proof.
  apply (unsupported_method_raises (mkModule [x00; x00; x03; xe8]) 2000
           (PyBytes [x21]) [x41; x41] None).
  intros m. discriminate.
Defined.

(** C8. Empty input: encoding the empty byte sequence under either method
    writes exactly the five bytes of the header, and decoding these returns
    with the empty byte sequence written. *)
Theorem empty_input (clock_def : Z) (md : rle_module) (clock : Z) (m : RLEMethod) :
  def_encode_rle clock_def = Ret md ->
  encode_rle md clock (Member m) [] None
  = mkResult (Some (header m (ts_default md))) (Ret tt)
  /\ length (header m (ts_default md)) = 5%nat
  /\ decode_rle (header m (ts_default md))
     = mkResult (Some []) (Ret (m, ts_default md)).
Proof.
  intros Hdef. pose proof (def_encode_rle_ts_length _ _ Hdef) as Hts.
  assert (Henc : encode_rle md clock (Member m) [] None
                 = mkResult (Some (header m (ts_default md))) (Ret tt)).
  { rewrite encode_rle_member. unfold header, payload. cbn [runs flat_map].
    now rewrite app_nil_r. }
  split; [exact Henc|]. split.
  - unfold header. rewrite length_app, Hts. now destruct m.
  - destruct (round_trip_ts md clock m [] None Hts) as (enc & Henc' & Hdec).
    rewrite Henc in Henc'. injection Henc' as <-. exact Hdec.
Qed.

Lemma empty_input_witness :
  def_encode_rle 1000 = Ret (mkModule [x00; x00; x03; xe8])
  /\ encode_rle (mkModule [x00; x00; x03; xe8]) 2000 (Member A) [] None
     = mkResult (Some (header A [x00; x00; x03; xe8])) (Ret tt)
  /\ length (header A [x00; x00; x03; xe8]) = 5%nat
  /\ decode_rle (header A [x00; x00; x03; xe8])
     = mkResult (Some []) (Ret (A, [x00; x00; x03; xe8])).
Proof.
  split; [reflexivity|].
  apply (empty_input 1000 (mkModule [x00; x00; x03; xe8]) 2000 A). reflexivity.
Defined.

Lemma decode_rle_header (m : RLEMethod) (ts p : bytes) :
  length ts = 4%nat ->
  decode_rle (header m ts ++ p) = finish m ts (decoded m p).
Proof.
  intros Hts. unfold header. rewrite <- app_assoc, decode_rle_member.
  now destruct (firstn_skipn_header ts p Hts) as [-> ->].
Qed.

Lemma method_of_finish (m : RLEMethod) (ts1 ts2 : bytes) (d : bytes * outcome unit) :
  method_of (returned (finish m ts1 d)) = method_of (returned (finish m ts2 d)).
Proof. unfold finish. cbn [returned]. now destruct (snd d). Qed.

(** C9. Timestamp noninterference: two inputs that differ only in the four
    timestamp bytes at offsets 1..4 make [decode_rle] write the same bytes
    and return the same method (or raise the same exception). *)
Theorem timestamp_noninterference (tag : byte) (ts1 ts2 p : bytes) :
  length ts1 = 4%nat ->
  length ts2 = 4%nat ->
  written (decode_rle (tag :: ts1 ++ p)) = written (decode_rle (tag :: ts2 ++ p))
  /\ method_of (returned (decode_rle (tag :: ts1 ++ p)))
     = method_of (returned (decode_rle (tag :: ts2 ++ p))).
Proof.
  intros H1 H2.
  destruct (Byte.byte_eq_dec tag x21) as [->|HnA].
  - change (?t :: ?ts ++ p) with (header A ts ++ p).
    rewrite !decode_rle_header by assumption.
    split; [reflexivity|apply method_of_finish].
  - destruct (Byte.byte_eq_dec tag x8a) as [->|HnB].
    + change (?t :: ?ts ++ p) with (header B ts ++ p).
      rewrite !decode_rle_header by assumption.
      split; [reflexivity|apply method_of_finish].
    + assert (Hraise : forall ts,
                 decode_rle (tag :: ts ++ p)
                 = mkResult None (Raise ValueError_not_a_method)).
      { intros ts. apply unknown_tag_not_a_method;
          unfold starts_with; cbn [hd_error]; congruence. }
      now rewrite !Hraise.
Qed.

Lemma timestamp_noninterference_witness :
  written (decode_rle (x8a :: [x00; x00; x03; xe8] ++ [x4c; x4c; x04; x41]))
  = written (decode_rle (x8a :: [x63; x5c; x66; xc0] ++ [x4c; x4c; x04; x41]))
  /\ method_of (returned (decode_rle (x8a :: [x00; x00; x03; xe8] ++ [x4c; x4c; x04; x41])))
     = method_of (returned (decode_rle (x8a :: [x63; x5c; x66; xc0] ++ [x4c; x4c; x04; x41]))).
Proof.
  apply (timestamp_noninterference x8a [x00; x00; x03; xe8] [x63; x5c; x66; xc0]
           [x4c; x4c; x04; x41]); reflexivity.
Defined.

(** C10. Short header: an input that starts with a method tag and is
    shorter than five bytes makes [decode_rle] return the method and the
    bytes after the tag as timestamp, with nothing written to the (opened)
    output file. *)
Theorem short_header_accepted (m : RLEMethod) (rest : bytes) :
  (length (value m ++ rest) < 5)%nat ->
  decode_rle (value m ++ rest) = mkResult (Some []) (Ret (m, rest)).
Proof.
  intros Hlen. rewrite decode_rle_member.
  assert (Hrest : (length rest <= 4)%nat).
  { rewrite length_app in Hlen. destruct m; simpl in Hlen; lia. }
  rewrite firstn_all2, skipn_all2 by exact Hrest.
  now destruct m.
Qed.

Lemma short_header_accepted_witness :
  decode_rle (value A ++ []) = mkResult (Some []) (Ret (A, []))
  /\ decode_rle (value B ++ [x00; x01]) = mkResult (Some []) (Ret (B, [x00; x01])).
Proof.
  split.
  - apply (short_header_accepted A []). simpl. lia.
  - apply (short_header_accepted B [x00; x01]). simpl. lia.
Defined.

(** * Further properties of the codec *)

(** ** What [_do_encode] hands to [write_fn] *)

Lemma runs_from_counts (rest : bytes) :
  forall (c : byte) (n : Z) (r : byte * Z),
    1 <= n <= 255 ->
    In r (runs_from c n rest) ->
    1 <= snd r <= 255.
Proof.
  induction rest as [|x rest IH]; intros c n r Hn Hin; cbn [runs_from] in Hin.
  - destruct Hin as [<-|[]]. exact Hn.
  - destruct (Byte.eqb x c).
    + destruct (Z.eqb_spec (n + 1) 256) as [E|E].
      * destruct Hin as [<-|Hin]; [cbn [snd]; lia|].
        apply (IH c 1 r); [lia|exact Hin].
      * apply (IH c (n + 1) r); [lia|exact Hin].
    + destruct Hin as [<-|Hin]; [exact Hn|].
      apply (IH x 1 r); [lia|exact Hin].
Qed.

Lemma runs_counts_in_range (b : bytes) (r : byte * Z) :
  In r (runs b) -> 1 <= snd r <= 255.
Proof.
  destruct b as [|x rest]; [intros []|].
  apply runs_from_counts. lia.
Qed.

Lemma runs_from_expansion (rest : bytes) :
  forall (c : byte) (n : Z),
    0 <= n ->
    flat_map run_expansion (runs_from c n rest) = repeat c (Z.to_nat n) ++ rest.
Proof.
  unfold run_expansion.
  induction rest as [|x rest IH]; intros c n Hn; cbn [runs_from].
  - reflexivity.
  - destruct (Byte.eqb x c) eqn:Exc.
    + apply Byte.byte_dec_bl in Exc; subst x.
      destruct (n + 1 =? 256).
      * cbn [flat_map fst snd]. rewrite (IH c 1) by lia.
        replace (n + 1 - 1) with n by lia. reflexivity.
      * rewrite (IH c (n + 1)) by lia. now rewrite repeat_succ_Z.
    + cbn [flat_map fst snd]. rewrite (IH x 1) by lia. reflexivity.
Qed.

Lemma runs_expansion (b : bytes) : flat_map run_expansion (runs b) = b.
Proof.
  destruct b as [|x rest]; [reflexivity|].
  cbn [runs]. now rewrite runs_from_expansion by lia.
Qed.

Lemma runs_from_head (rest : bytes) :
  forall (c : byte) (n : Z),
    exists k tl, runs_from c n rest = (c, k) :: tl.
Proof.
  induction rest as [|x rest IH]; intros c n; cbn [runs_from].
  - now eexists _, _.
  - destruct (Byte.eqb x c).
    + destruct (n + 1 =? 256); [now eexists _, _ | apply IH].
    + now eexists _, _.
Qed.

Lemma runs_from_full_before_same (rest : bytes) :
  forall (c : byte) (n : Z), full_before_same (runs_from c n rest).
Proof.
  induction rest as [|x rest IH]; intros c n; cbn [runs_from].
  - exact I.
  - destruct (Byte.eqb x c) eqn:Exc.
    + destruct (Z.eqb_spec (n + 1) 256) as [E|E]; [|apply IH].
      specialize (IH c 1).
      destruct (runs_from_head rest c 1) as (k & tl & Hhd).
      rewrite Hhd in *. split; [|exact IH]. intros _. cbn [snd]. lia.
    + specialize (IH x 1).
      destruct (runs_from_head rest x 1) as (k & tl & Hhd).
      rewrite Hhd in *. split; [|exact IH].
      cbn [fst]. intros ->. now rewrite byte_eqb_refl in Exc.
Qed.

Lemma runs_full_before_same (b : bytes) : full_before_same (runs b).
Proof.
  destruct b as [|x rest]; [exact I|]. apply runs_from_full_before_same.
Qed.

(** For every input, [encode_rle] writes the header and then one piece per
    call [write_fn(curr_byte, count)], where the calls [rs] satisfy: every
    count lies in 1..255 (it always fits the count byte); writing each byte
    as often as its count says gives the input back, in order; and two calls
    in a row are for the same byte only when the first has the full count
    255 (runs are cut nowhere else). *)
Theorem encoded_runs (md : rle_module) (clock : Z) (ts : option bytes)
        (m : RLEMethod) (b : bytes) :
  exists rs,
    encode_rle md clock (Member m) b ts
    = mkResult (Some (header m (effective_ts md ts) ++ flat_map (emit m) rs))
               (Ret tt)
    /\ Forall (fun r => 1 <= snd r <= 255) rs
    /\ flat_map run_expansion rs = b
    /\ full_before_same rs.
Proof.
  exists (runs b). split.
  - rewrite encode_rle_member. unfold header, payload. now rewrite <- app_assoc.
  - split; [|split].
    + apply Forall_forall. intros r. apply runs_counts_in_range.
    + apply runs_expansion.
    + apply runs_full_before_same.
Qed.

Lemma runs_from_remainder (x : byte) (k r : nat) :
  (1 <= r <= 255)%nat ->
  runs_from x 1 (repeat x (255 * k + (r - 1))) =
  repeat (x, 255) k ++ [(x, Z.of_nat r)].
Proof.
  intros Hr. rewrite repeat_add_app, runs_from_chunks.
  f_equal. rewrite <- (app_nil_r (repeat x (r - 1))).
  rewrite runs_from_same by lia. cbn [runs_from]. do 2 f_equal. lia.
Qed.

Lemma flat_map_repeat {T U} (f : T -> list U) (a : T) (k : nat) :
  flat_map f (repeat a k) = concat (repeat (f a) k).
Proof.
  induction k as [|j IH]; [reflexivity|].
  cbn [repeat flat_map concat]. now rewrite IH.
Qed.

(** Run splitting under Method A: [255 * k + r] equal bytes, [1 <= r <= 255],
    are written as [k] pairs with count 255 followed by one pair with count
    [r]; no count is ever 0 and none exceeds 255. *)
Theorem long_run_mA (md : rle_module) (clock : Z) (ts : option bytes)
        (x : byte) (k r : nat) :
  (1 <= r <= 255)%nat ->
  encode_rle md clock (Member A) (repeat x (255 * k + r)) ts
  = mkResult
      (Some (header A (effective_ts md ts)
             ++ concat (repeat [xff; x] k) ++ [byte_of_Z (Z.of_nat r); x]))
      (Ret tt).
Proof.
  intros Hr. rewrite encode_rle_member. unfold header.
  rewrite <- app_assoc. do 3 f_equal.
  unfold payload.
  replace (255 * k + r)%nat with (S (255 * k + (r - 1))) by lia.
  cbn [repeat runs]. rewrite runs_from_remainder by exact Hr.
  rewrite flat_map_app, flat_map_repeat. reflexivity.
Qed.

Lemma long_run_mA_witness :
  encode_rle (mkModule [x00; x00; x03; xe8]) 0 (Member A)
             (repeat x41 (255 * 2 + 255)) None
  = mkResult
      (Some (header A [x00; x00; x03; xe8]
             ++ concat (repeat [xff; x41] 2) ++ [byte_of_Z (Z.of_nat 255); x41]))
      (Ret tt).
Proof.
  apply (long_run_mA (mkModule [x00; x00; x03; xe8]) 0 None x41 2 255). lia.
Defined.

(** Run splitting under Method B: [255 * k + r] equal bytes, [2 <= r <= 255],
    are written as [k] doubled bytes with count 255 followed by the doubled
    byte with count [r]. *)
Theorem long_run_mB (md : rle_module) (clock : Z) (ts : option bytes)
        (x : byte) (k r : nat) :
  (2 <= r <= 255)%nat ->
  encode_rle md clock (Member B) (repeat x (255 * k + r)) ts
  = mkResult
      (Some (header B (effective_ts md ts)
             ++ concat (repeat [x; x; xff] k) ++ [x; x; byte_of_Z (Z.of_nat r)]))
      (Ret tt).
Proof.
  intros Hr. rewrite encode_rle_member. unfold header.
  rewrite <- app_assoc. do 3 f_equal.
  unfold payload.
  replace (255 * k + r)%nat with (S (255 * k + (r - 1))) by lia.
  cbn [repeat runs]. rewrite runs_from_remainder by lia.
  rewrite flat_map_app, flat_map_repeat.
  cbn [flat_map emit]. unfold emit_mB at 2. cbn [fst snd].
  destruct (Z.ltb_spec 1 (Z.of_nat r)) as [_|Hle]; [|lia].
  rewrite app_nil_r. reflexivity.
Qed.

Lemma long_run_mB_witness :
  encode_rle (mkModule [x00; x00; x03; xe8]) 0 (Member B)
             (repeat x41 (255 * 1 + 2)) None
  = mkResult
      (Some (header B [x00; x00; x03; xe8]
             ++ concat (repeat [x41; x41; xff] 1)
             ++ [x41; x41; byte_of_Z (Z.of_nat 2)]))
      (Ret tt).
Proof.
  apply (long_run_mB (mkModule [x00; x00; x03; xe8]) 0 None x41 1 2). lia.
Defined.

(** ** Size of the output *)

Lemma runs_from_length (rest : bytes) :
  forall (c : byte) (n : Z),
    (length (runs_from c n rest) <= 1 + length rest)%nat.
Proof.
  induction rest as [|x rest IH]; intros c n; cbn [runs_from]; [simpl; lia|].
  destruct (Byte.eqb x c).
  - destruct (n + 1 =? 256).
    + specialize (IH c 1). simpl in *. lia.
    + specialize (IH c (n + 1)). simpl in *. lia.
  - specialize (IH x 1). simpl in *. lia.
Qed.

Lemma payload_mA_length (rs : list (byte * Z)) :
  length (flat_map emit_mA rs) = (2 * length rs)%nat.
Proof.
  induction rs as [|r rs IH]; [reflexivity|].
  cbn [flat_map emit_mA app length]. rewrite IH. lia.
Qed.

Lemma emit_mB_length (c : byte) (n : Z) :
  1 <= n -> 2 * Z.of_nat (length (emit_mB (c, n))) <= 3 * n.
Proof.
  intros Hn. unfold emit_mB. cbn [fst snd].
  destruct (Z.ltb_spec 1 n); cbn [length]; lia.
Qed.

Lemma payload_mB_runs_from_length (rest : bytes) :
  forall (c : byte) (n : Z),
    1 <= n <= 255 ->
    2 * Z.of_nat (length (flat_map emit_mB (runs_from c n rest)))
    <= 3 * (n + Z.of_nat (length rest)).
Proof.
  induction rest as [|x rest IH]; intros c n Hn; cbn [runs_from].
  - cbn [flat_map]. rewrite app_nil_r.
    pose proof (emit_mB_length c n). cbn [length]. lia.
  - destruct (Byte.eqb x c).
    + destruct (Z.eqb_spec (n + 1) 256) as [E|E].
      * cbn [flat_map]. rewrite length_app.
        pose proof (emit_mB_length c (n + 1 - 1)).
        specialize (IH c 1). cbn [length]. lia.
      * specialize (IH c (n + 1)). cbn [length]. lia.
    + cbn [flat_map]. rewrite length_app.
      pose proof (emit_mB_length c n).
      specialize (IH x 1). cbn [length]. lia.
Qed.

(** The container is never much larger than the input: the five header
    bytes, plus at most two bytes per input byte under Method A and at most
    three bytes per two input bytes under Method B. *)
Theorem encoded_size_bound (clock_def : Z) (md : rle_module) (clock : Z)
        (m : RLEMethod) (b : bytes) :
  def_encode_rle clock_def = Ret md ->
  exists enc,
    encode_rle md clock (Member m) b None = mkResult (Some enc) (Ret tt)
    /\ (5 <= length enc)%nat
    /\ match m with
       | A => (length enc <= 5 + 2 * length b)%nat
       | B => (2 * length enc <= 10 + 3 * length b)%nat
       end.
Proof.
  intros Hdef. pose proof (def_encode_rle_ts_length _ _ Hdef) as Hts.
  eexists. split; [apply encode_rle_member|].
  cbn [effective_ts]. rewrite !length_app, Hts.
  assert (Htag : length (value m) = 1%nat) by now destruct m.
  rewrite Htag. split; [lia|].
  unfold payload, runs. destruct m; cbn [emit].
  - rewrite payload_mA_length.
    destruct b as [|x rest]; [simpl; lia|].
    pose proof (runs_from_length rest x 1). cbn [length]. lia.
  - destruct b as [|x rest]; [simpl; lia|].
    pose proof (payload_mB_runs_from_length rest x 1). cbn [length]. lia.
Qed.

Lemma encoded_size_bound_witness :
  def_encode_rle 1000 = Ret (mkModule [x00; x00; x03; xe8])
  /\ exists enc,
      encode_rle (mkModule [x00; x00; x03; xe8]) 2000 (Member B)
                 [x41; x41; x42; x42] None
      = mkResult (Some enc) (Ret tt)
      /\ (5 <= length enc)%nat
      /\ (2 * length enc <= 10 + 3 * length [x41; x41; x42; x42])%nat.
Proof.
  split; [reflexivity|].
  apply (encoded_size_bound 1000 (mkModule [x00; x00; x03; xe8]) 2000 B
           [x41; x41; x42; x42]).
  reflexivity.
Defined.

(** ** Input without repetition *)

Lemma runs_from_no_adjacent_equal (rest : bytes) :
  forall c : byte,
    no_adjacent_equal (c :: rest) ->
    runs_from c 1 rest = map (fun x => (x, 1)) (c :: rest).
Proof.
  induction rest as [|x rest IH]; intros c Hno; [reflexivity|].
  destruct Hno as [Hne Hno]. cbn [runs_from].
  rewrite byte_eqb_neq by congruence.
  rewrite (IH x Hno). reflexivity.
Qed.

(** Where no byte of the input is followed by an equal byte, Method B
    passes the input through unchanged after the header, and Method A writes
    each byte behind a count byte 1. *)
Theorem no_repetition_payloads (md : rle_module) (clock : Z)
        (ts : option bytes) (b : bytes) :
  no_adjacent_equal b ->
  encode_rle md clock (Member B) b ts
  = mkResult (Some (header B (effective_ts md ts) ++ b)) (Ret tt)
  /\ encode_rle md clock (Member A) b ts
     = mkResult
         (Some (header A (effective_ts md ts) ++ flat_map (fun x => [x01; x]) b))
         (Ret tt).
Proof.
  intros Hno. rewrite !encode_rle_member. unfold header.
  rewrite <- !app_assoc.
  assert (Hruns : runs b = map (fun x => (x, 1)) b).
  { destruct b as [|x rest]; [reflexivity|].
    now apply runs_from_no_adjacent_equal. }
  unfold payload. rewrite Hruns. rewrite !flat_map_concat_map, !map_map.
  split; do 4 f_equal.
  clear. induction b as [|x b IH]; [reflexivity|].
  cbn [map concat]. rewrite IH. reflexivity.
Qed.

Lemma no_repetition_payloads_witness :
  encode_rle (mkModule [x00; x00; x03; xe8]) 0 (Member B) [x41; x42; x43] None
  = mkResult (Some (header B [x00; x00; x03; xe8] ++ [x41; x42; x43])) (Ret tt)
  /\ encode_rle (mkModule [x00; x00; x03; xe8]) 0 (Member A) [x41; x42; x43] None
     = mkResult
         (Some (header A [x00; x00; x03; xe8]
                ++ flat_map (fun x => [x01; x]) [x41; x42; x43]))
         (Ret tt).
Proof.
  apply (no_repetition_payloads (mkModule [x00; x00; x03; xe8]) 0 None
           [x41; x42; x43]).
  simpl. repeat split; discriminate.
Defined.

(** ** Composition *)

(** Encoding works run by run: when [b1] does not end with the byte that
    [b2] starts with, the container for [b1 ++ b2] is the container for [b1]
    followed by the payload for [b2]. *)
Theorem encode_rle_app (md : rle_module) (clock : Z) (ts : option bytes)
        (m : RLEMethod) (b1 b2 : bytes) :
  (forall y, starts_with y b2 -> ~ ends_with y b1) ->
  exists enc1,
    encode_rle md clock (Member m) b1 ts = mkResult (Some enc1) (Ret tt)
    /\ encode_rle md clock (Member m) (b1 ++ b2) ts
       = mkResult (Some (enc1 ++ payload m b2)) (Ret tt).
Proof.
  intros Hsep. eexists. split; [apply encode_rle_member|].
  rewrite encode_rle_member, payload_app by exact Hsep.
  now rewrite <- !app_assoc.
Qed.

Lemma encode_rle_app_witness :
  exists enc1,
    encode_rle (mkModule [x00; x00; x03; xe8]) 0 (Member B) [x41; x41] None
    = mkResult (Some enc1) (Ret tt)
    /\ encode_rle (mkModule [x00; x00; x03; xe8]) 0 (Member B)
                  ([x41; x41] ++ [x42]) None
       = mkResult (Some (enc1 ++ payload B [x42])) (Ret tt).
Proof.
  apply (encode_rle_app (mkModule [x00; x00; x03; xe8]) 0 None B [x41; x41] [x42]).
  intros y Hy Hend. unfold starts_with, ends_with in *. simpl in *. congruence.
Defined.

(** ** Round trip with a timestamp passed by the caller *)

(** A caller may pass [ts] itself: for any four bytes the round trip holds
    and [decode_rle] returns just these bytes as the timestamp. *)
Theorem round_trip_explicit_ts (md : rle_module) (clock : Z) (m : RLEMethod)
        (b t : bytes) :
  length t = 4%nat ->
  exists enc,
    encode_rle md clock (Member m) b (Some t) = mkResult (Some enc) (Ret tt)
    /\ decode_rle enc = mkResult (Some b) (Ret (m, t)).
Proof.
  intros Ht. exact (round_trip_ts md clock m b (Some t) Ht).
Qed.

Lemma round_trip_explicit_ts_witness :
  exists enc,
    encode_rle (mkModule []) 0 (Member A) [x41; x41; x42] (Some [x01; x02; x03; x04])
    = mkResult (Some enc) (Ret tt)
    /\ decode_rle enc = mkResult (Some [x41; x41; x42]) (Ret (A, [x01; x02; x03; x04])).
Proof.
  apply (round_trip_explicit_ts (mkModule []) 0 A [x41; x41; x42] [x01; x02; x03; x04]).
  reflexivity.
Defined.

(** ** The decoders on arbitrary payloads *)

Lemma decoded_mA_parity (n : nat) :
  forall p : bytes,
    (length p < n)%nat ->
    snd (decoded_mA p)
    = if Nat.even (length p) then Ret tt else Raise ValueError_unpack.
Proof.
  induction n as [|n IH]; intros p Hn; [lia|].
  destruct p as [|c [|x r]]; [reflexivity..|].
  cbn [decoded_mA]. specialize (IH r).
  destruct (decoded_mA r) as [o res]. cbn [snd] in *.
  rewrite IH by (simpl in Hn; lia). reflexivity.
Qed.

(** [decode_rle] returns for a Method A container exactly when the payload
    has an even number of bytes. *)
Theorem decode_mA_returns_iff_even (ts p : bytes) :
  length ts = 4%nat ->
  returned (decode_rle (header A ts ++ p)) = Ret (A, ts)
  <-> Nat.even (length p) = true.
Proof.
  intros Hts. rewrite decode_rle_header by exact Hts.
  unfold finish. cbn [returned decoded].
  rewrite (decoded_mA_parity (S (length p)) p) by lia.
  destruct (Nat.even (length p)); split; intros H; (reflexivity || discriminate).
Qed.

Lemma decode_mA_returns_iff_even_witness :
  returned (decode_rle (header A [x00; x00; x03; xe8] ++ [x02; x41; x00; x42]))
  = Ret (A, [x00; x00; x03; xe8])
  <-> Nat.even (length [x02; x41; x00; x42]) = true.
Proof.
  apply (decode_mA_returns_iff_even [x00; x00; x03; xe8] [x02; x41; x00; x42]).
  reflexivity.
Defined.

Lemma decoded_mA_pairs (pairs : list (byte * byte)) :
  decoded_mA (flat_map pair_bytes pairs) = (flat_map pair_expansion pairs, Ret tt).
Proof.
  induction pairs as [|[c x] pairs IH]; [reflexivity|].
  cbn [flat_map pair_bytes fst snd app decoded_mA]. rewrite IH. reflexivity.
Qed.

(** Method A decoding of any sequence of (count, byte) pairs, whether an
    encoder produced it or not: each byte is written as often as its count
    byte says, a count of 0 writing nothing. *)
Theorem decode_mA_pairs (ts : bytes) (pairs : list (byte * byte)) :
  length ts = 4%nat ->
  decode_rle (header A ts ++ flat_map pair_bytes pairs)
  = mkResult (Some (flat_map pair_expansion pairs)) (Ret (A, ts)).
Proof.
  intros Hts. rewrite decode_rle_header by exact Hts.
  cbn [decoded]. rewrite decoded_mA_pairs. reflexivity.
Qed.

Lemma decode_mA_pairs_witness :
  decode_rle (header A [x00; x00; x03; xe8]
              ++ flat_map pair_bytes [(x02, x41); (x00, x42); (x01, x43)])
  = mkResult (Some (flat_map pair_expansion [(x02, x41); (x00, x42); (x01, x43)]))
             (Ret (A, [x00; x00; x03; xe8])).
Proof.
  apply (decode_mA_pairs [x00; x00; x03; xe8] [(x02, x41); (x00, x42); (x01, x43)]).
  reflexivity.
Defined.

(** Method B decoding of any sequence of items in which no passed-through
    byte is followed by an equal byte: a passed-through byte is written
    once, a doubled byte as often as its count byte says (0 times for count
    0), and [decode_rle] returns. *)
Theorem decode_mB_items (ts : bytes) (items : list item) :
  length ts = 4%nat ->
  separated items [] ->
  decode_rle (header B ts ++ flat_map item_bytes items)
  = mkResult (Some (flat_map item_expansion items)) (Ret (B, ts)).
Proof.
  intros Hts Hsep. rewrite decode_rle_header by exact Hts.
  cbn [decoded]. rewrite <- (app_nil_r (flat_map item_bytes items)).
  rewrite decoded_mB_items by exact Hsep.
  unfold finish. cbn [decoded_mB fst snd]. now rewrite app_nil_r.
Qed.

Lemma decode_mB_items_witness :
  decode_rle (header B [x00; x00; x03; xe8]
              ++ flat_map item_bytes [Literal x41; Doubled x42 x00; Doubled x43 x03])
  = mkResult
      (Some (flat_map item_expansion [Literal x41; Doubled x42 x00; Doubled x43 x03]))
      (Ret (B, [x00; x00; x03; xe8])).
Proof.
  apply (decode_mB_items [x00; x00; x03; xe8]
           [Literal x41; Doubled x42 x00; Doubled x43 x03]).
  - reflexivity.
  - simpl. split; [discriminate|exact I].
Defined.

(** ** Which exceptions can be raised *)





(** ** Size of the decompressed output *)

Lemma count_of_le (c : byte) : (count_of c <= 255)%nat.
Proof. unfold count_of. pose proof (to_N_range c). lia. Qed.

Lemma decoded_mA_length (n : nat) :
  forall p : bytes,
    (length p < n)%nat ->
    (2 * length (fst (decoded_mA p)) <= 255 * length p)%nat.
Proof.
  induction n as [|n IH]; intros p Hn; [lia|].
  destruct p as [|c [|x r]]; [simpl; lia..|].
  cbn [decoded_mA]. specialize (IH r).
  destruct (decoded_mA r) as [o res]. cbn [fst] in *.
  rewrite length_app, repeat_length. pose proof (count_of_le c).
  simpl in Hn. cbn [length]. lia.
Qed.

Lemma decoded_mB_length (n : nat) :
  forall p : bytes,
    (length p < n)%nat ->
    (3 * length (fst (decoded_mB p)) <= 255 * length p)%nat.
Proof.
  induction n as [|n IH]; intros p Hn; [lia|].
  destruct p as [|b1 [|b2 tl2]]; [simpl; lia..|].
  rewrite decoded_mB_pair. simpl in Hn. destruct (Byte.eqb b1 b2).
  - destruct tl2 as [|b3 r]; [simpl; lia|].
    specialize (IH r). destruct (decoded_mB r) as [o res]. cbn [fst] in *.
    rewrite length_app, repeat_length. pose proof (count_of_le b3).
    simpl in Hn. cbn [length]. lia.
  - specialize (IH (b2 :: tl2)).
    destruct (decoded_mB (b2 :: tl2)) as [o res]. cbn [fst] in *.
    cbn [length] in *. lia.
Qed.

(** What [decode_rle] writes is bounded by the size of the payload, whether
    it returns or raises: at most 255 bytes for every two payload bytes under
    Method A, and for every three payload bytes under Method B. *)
Theorem decoded_size_bound (m : RLEMethod) (ts p : bytes) :
  length ts = 4%nat ->
  exists out,
    written (decode_rle (header m ts ++ p)) = Some out
    /\ match m with
       | A => (2 * length out <= 255 * length p)%nat
       | B => (3 * length out <= 255 * length p)%nat
       end.
Proof.
  intros Hts. rewrite decode_rle_header by exact Hts.
  unfold finish. cbn [written]. eexists. split; [reflexivity|].
  destruct m; cbn [decoded].
  - apply (decoded_mA_length (S (length p))). lia.
  - apply (decoded_mB_length (S (length p))). lia.
Qed.

Lemma decoded_size_bound_witness :
  exists out,
    written (decode_rle (header B [x00; x00; x03; xe8] ++ [x41; x41; xff; x42])) = Some out
    /\ (3 * length out <= 255 * length [x41; x41; xff; x42])%nat.
Proof.
  apply (decoded_size_bound B [x00; x00; x03; xe8] [x41; x41; xff; x42]).
  reflexivity.
Defined.

(** ** The timestamp end to end *)

(** For a module defined when the clock reads [clock_def] seconds, with
    [0 <= clock_def < 2^32], the definition succeeds, and the timestamp that
    [decode_rle] returns for any container written by [encode_rle] (called
    without [ts]) converts, as [pycoder.py] converts it with
    [int.from_bytes(values[1], 'big')], to [clock_def]. *)
Theorem decoded_timestamp (clock_def clock : Z) (m : RLEMethod) (b : bytes) :
  0 <= clock_def < 4294967296 ->
  exists md enc ts,
    def_encode_rle clock_def = Ret md
    /\ encode_rle md clock (Member m) b None = mkResult (Some enc) (Ret tt)
    /\ returned (decode_rle enc) = Ret (m, ts)
    /\ from_bytes ts = clock_def.
Proof.
  intros Hclock.
  assert (Hdef : def_encode_rle clock_def = Ret (mkModule (big_endian 4 clock_def))).
  { unfold def_encode_rle, to_bytes.
    destruct (Z.ltb_spec clock_def 0) as [Hneg|_]; [lia|].
    destruct (Z.leb_spec (256 ^ Z.of_nat 4) clock_def) as [Hbig|_];
      [change (256 ^ Z.of_nat 4) with 4294967296 in Hbig; lia|].
    reflexivity. }
  destruct (encode_rle_stamps_definition_time clock_def _ clock m b Hdef)
    as (Henc & Hlen & Hfrom).
  destruct (round_trip_ts (mkModule (big_endian 4 clock_def)) clock m b None Hlen)
    as (enc & Henc' & Hdec).
  exists (mkModule (big_endian 4 clock_def)), enc, (big_endian 4 clock_def).
  split; [exact Hdef|]. split; [exact Henc'|].
  split; [now rewrite Hdec|exact Hfrom].
Qed.

Lemma decoded_timestamp_witness :
  exists md enc ts,
    def_encode_rle 1667000000 = Ret md
    /\ encode_rle md 1667000100 (Member A) [x41; x41; x42] None
       = mkResult (Some enc) (Ret tt)
    /\ returned (decode_rle enc) = Ret (A, ts)
    /\ from_bytes ts = 1667000000.
Proof.
  apply (decoded_timestamp 1667000000 1667000100 A [x41; x41; x42]). lia.
Defined.

(** ** The paths [pycoder.py] computes *)

Lemma string_length_append (a b : String.string) :
  String.length (String.append a b) = (String.length a + String.length b)%nat.
Proof. induction a as [|c a IH]; simpl; [reflexivity|now rewrite IH]. Qed.


Lemma substring_length_le (n : nat) :
  forall s : String.string,
    (String.length (String.substring 0 n s) <= n)%nat.
Proof.
  induction n as [|n IH]; intros s; [now destruct s|].
  destruct s as [|c s]; simpl; [lia|]. specialize (IH s). lia.
Qed.



(** The script never passes the same path as input and output: the output
    path of compression is longer than [FILE], and that of decompression is
    shorter than a non-empty [FILE]. *)
Theorem in_and_out_paths_differ (FILE : String.string) :
  encode_out_file_path FILE <> FILE
  /\ (FILE <> String.EmptyString -> decode_out_file_path FILE <> FILE).
Proof.
  split.
  - intros Heq. apply (f_equal String.length) in Heq.
    unfold encode_out_file_path in Heq. rewrite string_length_append in Heq.
    simpl in Heq. lia.
  - intros Hne Heq. apply (f_equal String.length) in Heq.
    unfold decode_out_file_path in Heq.
    pose proof (substring_length_le (String.length FILE - 4) FILE) as Hle.
    rewrite Heq in Hle. destruct FILE as [|c s]; [now apply Hne|].
    simpl in Hle. lia.
Qed.

Lemma in_and_out_paths_differ_witness :
  encode_out_file_path "a.rle"%string <> "a.rle"%string
  /\ decode_out_file_path "a.rle"%string <> "a.rle"%string.
Proof.
  destruct (in_and_out_paths_differ "a.rle"%string) as [He Hd].
  split; [exact He|]. apply Hd. discriminate.
Defined.
